(** * Dependency-graph builder and topological linearizer of code-analyzer

    A shallow embedding of [analyzer/parser.py] and [analyzer/graph.py]:
    [JavaParser.parse], [DependencyGraph.build_graph] and
    [DependencyGraph.get_topological_sort], together with the parts of the
    Python runtime and of the [networkx] and [re] libraries they call.

    Conventions.
    - A Python [str] is a [string]; a character is an [ascii], read as the
      code point of the same number.
    - A Python [dict] that is iterated is an association list in insertion
      order; a [dict] that is only looked up is a [gmap].
    - A Python [set] of strings is the list of its elements in iteration
      order.  That order is fixed by the interpreter's string hashing and is
      a parameter of the development (class [PySet]).
    - Exceptions are explicit: a call returns an [outcome].
    - [networkx] is the 3.x line, where [topological_sort] flattens
      [topological_generations]; [javalang] is a parameter. *)

From Stdlib Require Import ZArith Ascii String.
From Stdlib Require OrderedTypeEx.
From stdpp Require Import base option list strings gmap sorting relations.

Local Open Scope string_scope.
Local Open Scope Z_scope.

(** ** Outcomes of calls that may raise *)

Inductive exn : Type :=
  | NetworkXUnfeasible
  | RuntimeError.

Inductive outcome (A : Type) : Type :=
  | Return (a : A)
  | Raise (e : exn)
  | Diverge.
Arguments Return {A} a.
Arguments Raise {A} e.
Arguments Diverge {A}.

(** ** Python sets of strings

    [set_of l] is the iteration order of the set obtained by adding the
    elements of [l] one after the other to an empty set ([set(l)], or a loop
    of [s.add(x)]).  Python fixes neither the order nor its stability across
    interpreter runs; it only guarantees that each element is met once. *)

Class PySet := {
  set_of : list string → list string;
  set_of_NoDup : ∀ l, NoDup (set_of l);
  set_of_elem : ∀ l x, x ∈ set_of l ↔ x ∈ l
}.

(** ** Python dictionaries that are iterated: insertion-ordered *)

Module Dict.
Section dict.
Context {V : Type}.

(** [d[k] = v]: an existing key keeps its position. *)
Fixpoint set (k : string) (v : V) (d : list (string * V)) : list (string * V) :=
  match d with
  | [] => [(k, v)]
  | (k', v') :: d' =>
      if decide (k' = k) then (k, v) :: d' else (k', v') :: set k v d'
  end.

End dict.
End Dict.

(** ** networkx.DiGraph

  [nodes] is the node dictionary in insertion order; [adj] maps a node to
  its successors in insertion order (a node without entry has none).  The
  predecessor dictionary networkx keeps in step with [adj] is derived. *)

Record DiGraph : Type := {
nodes : list string;
adj : gmap string (list string)
}.

Module nx.

Definition empty : DiGraph := {| nodes := []; adj := ∅ |}.

Definition neighbors (G : DiGraph) (n : string) : list string :=
default [] (adj G !! n).

Definition has_edge (G : DiGraph) (u v : string) : Prop := v ∈ neighbors G u.

Definition add_node (n : string) (G : DiGraph) : DiGraph :=
if decide (n ∈ nodes G) then G
else {| nodes := nodes G ++ [n]; adj := adj G |}.

Definition add_succ (v : string) (l : list string) : list string :=
if decide (v ∈ l) then l else l ++ [v].

Definition add_edge (u v : string) (G : DiGraph) : DiGraph :=
let G1 := add_node v (add_node u G) in
{| nodes := nodes G1; adj := <[u := add_succ v (neighbors G1 u)]> (adj G1) |}.

(** [len(G.pred[v])] *)
Definition in_degree (G : DiGraph) (v : string) : Z :=
Z.of_nat (length (filter (λ u, v ∈ neighbors G u) (nodes G))).

(** *** topological_generations / topological_sort (networkx 3.x)

  [indegree_map = {v: d for v, d in G.in_degree() if d > 0}]
  [zero_indegree = [v for v, d in G.in_degree() if d == 0]] *)

Definition indegree_map0 (G : DiGraph) : gmap string Z :=
list_to_map ((λ v, (v, in_degree G v)) <$>
             filter (λ v, 0 < in_degree G v) (nodes G)).

Definition zero_indegree0 (G : DiGraph) : list string :=
filter (λ v, in_degree G v = 0) (nodes G).

(** The body of [for child in G.neighbors(node)]; [None] is the [KeyError]
  that networkx turns into a [RuntimeError]. *)
Fixpoint relax (children : list string) (indegree_map : gmap string Z)
  (zero_indegree : list string) : option (gmap string Z * list string) :=
match children with
| [] => Some (indegree_map, zero_indegree)
| child :: rest =>
    match indegree_map !! child with
    | None => None
    | Some d =>
        let indegree_map := <[child := d - 1]> indegree_map in
        if decide (d - 1 = 0)
        then relax rest (delete child indegree_map) (zero_indegree ++ [child])
        else relax rest indegree_map zero_indegree
    end
end.

(** [for node in this_generation] *)
Fixpoint visit (G : DiGraph) (this_generation : list string)
  (indegree_map : gmap string Z) (zero_indegree : list string)
  : option (gmap string Z * list string) :=
match this_generation with
| [] => Some (indegree_map, zero_indegree)
| node :: rest =>
    if decide (node ∈ nodes G) then
      match relax (neighbors G node) indegree_map zero_indegree with
      | None => None
      | Some (indegree_map, zero_indegree) =>
          visit G rest indegree_map zero_indegree
      end
    else None
end.

(** [while zero_indegree], one unit of fuel per generation; the result is
  the list of generations yielded and the final [indegree_map]. *)
Fixpoint generations (fuel : nat) (G : DiGraph)
  (indegree_map : gmap string Z) (zero_indegree : list string)
  : outcome (list (list string) * gmap string Z) :=
match zero_indegree with
| [] => Return ([], indegree_map)
| _ :: _ =>
    match fuel with
    | O => Diverge
    | S fuel =>
        match visit G zero_indegree indegree_map [] with
        | None => Raise RuntimeError
        | Some (indegree_map, next) =>
            match generations fuel G indegree_map next with
            | Return (gens, final) => Return (zero_indegree :: gens, final)
            | Raise e => Raise e
            | Diverge => Diverge
            end
        end
    end
end.

(** [list(nx.topological_sort(G))]: the generations are exhausted, then the
  leftover [indegree_map] decides between the result and the exception. *)
Definition topological_sort (G : DiGraph) : outcome (list string) :=
match generations (S (length (nodes G))) G (indegree_map0 G) (zero_indegree0 G) with
| Return (gens, final) =>
    if decide (final = ∅) then Return (concat gens)
    else Raise NetworkXUnfeasible
| Raise e => Raise e
| Diverge => Diverge
end.

End nx.

(** ** Python's [sorted] on strings: ascending code-point order *)

Definition str_le (s1 s2 : string) : Prop := String.leb s1 s2 = true.

Global Instance str_le_dec : RelDecision str_le.
Proof. intros s1 s2. unfold str_le. apply _. Defined.

Definition sorted (l : list string) : list string := merge_sort str_le l.

(** ** The methods of [str] used by the builder *)

Module Str.

(** [s.endswith(suffix)] *)
Fixpoint endswith (s suffix : string) : bool :=
if String.eqb s suffix then true
else match s with
     | EmptyString => false
     | String _ s' => endswith s' suffix
     end.

(** [s.split(sep)] for a separator of one character; the result is never
  the empty list. *)
Fixpoint split (sep : ascii) (s : string) : list string :=
match s with
| EmptyString => [EmptyString]
| String c s' =>
    if Ascii.eqb c sep then EmptyString :: split sep s'
    else match split sep s' with
         | [] => [String c EmptyString]
         | w :: ws => String c w :: ws
         end
end.

(** [l[-1]] on a list that is not empty. *)
Definition item_last (l : list string) : string := default EmptyString (last l).

(** [s.replace(old, new)] for a non-empty [old]: the occurrences of [old]
  are found from the left and do not overlap; [skip] counts the characters
  of an occurrence still to be passed over. *)
Fixpoint replace_from (old new : string) (skip : nat) (s : string) : string :=
match s with
| EmptyString => EmptyString
| String c s' =>
    match skip with
    | S k => replace_from old new k s'
    | O =>
        if String.prefix old s
        then String.append new (replace_from old new (String.length old - 1) s')
        else String c (replace_from old new 0 s')
    end
end.

Definition replace (old new s : string) : string := replace_from old new 0 s.

End Str.

(** ** The two patterns of the regex fallback

  [re.findall(r'KW\s+([\w\.]+);', content)] for a keyword [KW], on the
  characters of [content].  [\s] and [\w] are the Unicode classes of
  [str] patterns, restricted to the code points below 256. *)

Module re.

Definition in_range (lo hi : N) (c : ascii) : bool :=
((lo <=? N_of_ascii c) && (N_of_ascii c <=? hi))%N.

(** [\s] *)
Definition is_space (c : ascii) : bool :=
in_range 9 13 c || in_range 28 32 c || in_range 133 133 c || in_range 160 160 c.

(** [\w] *)
Definition is_word (c : ascii) : bool :=
in_range 48 57 c || in_range 65 90 c || in_range 95 95 c || in_range 97 122 c
|| in_range 170 170 c || in_range 178 179 c || in_range 181 181 c
|| in_range 185 186 c || in_range 188 190 c || in_range 192 214 c
|| in_range 216 246 c || in_range 248 255 c.

(** [[\w\.]] *)
Definition is_name (c : ascii) : bool := is_word c || Ascii.eqb c ".".

(** The longest prefix of [s] in the class [p], and the rest: a greedy [p*]. *)
Fixpoint span (p : ascii → bool) (s : list ascii) : list ascii * list ascii :=
match s with
| [] => ([], [])
| c :: s' =>
    if p c then let '(run, rest) := span p s' in (c :: run, rest)
    else ([], s)
end.

Fixpoint strip_prefix (kw s : list ascii) : option (list ascii) :=
match kw, s with
| [], _ => Some s
| _ :: _, [] => None
| k :: kw', c :: s' => if Ascii.eqb k c then strip_prefix kw' s' else None
end.

(** A match of [KW\s+([\w\.]+);] that starts at the head of [s]: the
  captured group and the length of the whole match. *)
Definition match_here (kw s : list ascii) : option (list ascii * nat) :=
match strip_prefix kw s with
| None => None
| Some rest =>
    match span is_space rest with
    | ([], _) => None
    | (ws, rest) =>
        match span is_name rest with
        | ([], _) => None
        | (name, ";"%char :: _) =>
            Some (name, (length kw + length ws + length name + 1)%nat)
        | (_, _) => None
        end
    end
end.

(** The scan of [findall]: a match is taken wherever one starts, and the
  scan resumes behind it; [skip] counts the characters of the last match
  still to be passed over. *)
Fixpoint findall_from (kw : list ascii) (skip : nat) (s : list ascii)
  : list (list ascii) :=
match s with
| [] => []
| _ :: s' =>
    match skip with
    | S k => findall_from kw k s'
    | O =>
        match match_here kw s with
        | Some (name, len) => name :: findall_from kw (len - 1) s'
        | None => findall_from kw 0 s'
        end
    end
end.

Definition findall (kw content : string) : list string :=
string_of_list_ascii <$>
  findall_from (list_ascii_of_string kw) 0 (list_ascii_of_string content).

End re.

(** ** analyzer/parser.py *)

(** What the builder reads of the tree [javalang.parse.parse] returns:
  [tree.package.name] when there is a package declaration, and
  [imp.path] for each [imp] of [tree.imports]. *)
Record CompilationUnit : Type := {
package : option string;
imports : list string
}.

(** The [javalang] module as the process sees it: [None] when the import
  failed; otherwise [javalang.parse.parse], which returns a tree or, with
  [None], raises. *)
Definition Javalang : Type := option (string → option CompilationUnit).

Module JavaParser.
Section parser.
Context {py : PySet} (javalang : Javalang).

(** The pair [parse] returns: a namespace or Python's [None], and a set. *)
Definition parse (content : string) : option string * list string :=
  match javalang with
  | None => (None, set_of [])
  | Some javalang_parse =>
      match javalang_parse content with
      | Some tree => (Some (default EmptyString (package tree)), set_of (imports tree))
      | None => (None, set_of [])
      end
  end.
End parser.
End JavaParser.

(** ** analyzer/graph.py *)

Module DependencyGraph.
Section graph.
Context {py : PySet} (javalang : Javalang).

(** [__init__]: [self.graph = nx.DiGraph()] *)
Definition init : DiGraph := nx.empty.

(** The regex fallback of [build_graph], taken when [pkg is None]. *)
Definition fallback (content : string) : string * list string :=
  let 'matches := re.findall "package" content in
  let 'pkg := match matches with m :: _ => m | [] => EmptyString end in
  let 'matches_imp := re.findall "import" content in
  (pkg, set_of matches_imp).

(** [pkg] and [imports] as the loop body holds them after the fallback. *)
Definition parse_file (content : string) : string * list string :=
  match JavaParser.parse javalang content with
  | (None, _) => fallback content
  | (Some pkg, imports) => (pkg, imports)
  end.

Definition class_name (file_path : string) : string :=
  Str.replace ".java" "" (Str.item_last (Str.split "/" file_path)).

Definition full_name (pkg class_name : string) : string :=
  if decide (pkg = EmptyString) then class_name
  else String.append pkg (String.append "." class_name).

(** The three objects the first loop updates. *)
Record index : Type := {
  class_to_file : gmap string string;
  graph : DiGraph;
  file_imports : list (string * list string)
}.

(** One iteration of [for file_path, content in code_files.items()]. *)
Definition index_file (st : index) (file : string * string) : index :=
  let '(file_path, content) := file in
  if negb (Str.endswith file_path ".java") then st
  else
    let '(pkg, imports) := parse_file content in
    let full_name := full_name pkg (class_name file_path) in
    {| class_to_file := <[full_name := file_path]> (class_to_file st);
       graph := nx.add_node file_path (graph st);
       file_imports := Dict.set file_path imports (file_imports st) |}.

Definition index_pass (code_files : list (string * string)) (G : DiGraph) : index :=
  foldl index_file
    {| class_to_file := ∅; graph := G; file_imports := [] |} code_files.

(** One iteration of [for imp in imports]. *)
Definition add_import (class_to_file : gmap string string)
    (file_path : string) (G : DiGraph) (imp : string) : DiGraph :=
  match class_to_file !! imp with
  | Some target_file => nx.add_edge file_path target_file G
  | None => G
  end.

(** One iteration of [for file_path, imports in file_imports.items()]. *)
Definition add_imports (class_to_file : gmap string string)
    (G : DiGraph) (entry : string * list string) : DiGraph :=
  foldl (add_import class_to_file entry.1) G entry.2.

Definition edge_pass (st : index) : DiGraph :=
  foldl (add_imports (class_to_file st)) (graph st) (file_imports st).

(** [build_graph] on a [DependencyGraph] whose [self.graph] is [G]; the
    result is the new [self.graph]. *)
Definition build_graph (code_files : list (string * string)) (G : DiGraph) : DiGraph :=
  edge_pass (index_pass code_files G).

(** [get_topological_sort]: only [NetworkXUnfeasible] is caught. *)
Definition get_topological_sort (G : DiGraph) : outcome (list string) :=
  match nx.topological_sort G with
  | Return order => Return (reverse order)
  | Raise NetworkXUnfeasible => Return (sorted (nodes G))
  | Raise e => Raise e
  | Diverge => Diverge
  end.

(** [reader.py]: a fresh [DependencyGraph], [build_graph], then
    [get_topological_sort]. *)
Definition run (code_files : list (string * string)) : outcome (list string) :=
  get_topological_sort (build_graph code_files init).
End graph.
End DependencyGraph.


Local Close Scope Z_scope.
Local Close Scope string_scope.

(** ** Notions used by the statements *)

(** The graphs [add_node] and [add_edge] can build: no node and no
    successor is listed twice, and both ends of an edge are nodes. *)
Definition wf_graph (G : DiGraph) : Prop :=
  NoDup (nodes G) ∧
  ∀ u, NoDup (nx.neighbors G u) ∧
       ∀ v, v ∈ nx.neighbors G u → u ∈ nodes G ∧ v ∈ nodes G.

Definition has_cycle (G : DiGraph) : Prop := ∃ v, tc (nx.has_edge G) v v.

Definition acyclic (G : DiGraph) : Prop := ¬ has_cycle G.

(** [x] occurs at a smaller index than [y]. *)
Definition before (x y : string) (l : list string) : Prop :=
  ∃ i j, l !! i = Some x ∧ l !! j = Some y ∧ i < j.

(** The in-edges of [v] whose source is not in [done]. *)
Definition remaining (G : DiGraph) (done : list string) (v : string) : Z :=
  Z.of_nat (length (filter (λ u, v ∈ nx.neighbors G u ∧ u ∉ done) (nodes G))).

(** The loop invariant of [topological_generations]: [done] are the nodes
    already visited, [queue] the rest of the current generation followed by
    the next one. *)
Record kahn_inv (G : DiGraph) (done queue : list string)
    (indegree_map : gmap string Z) : Prop := {
  ki_nodup : NoDup (done ++ queue);
  ki_nodes : ∀ v, v ∈ done ++ queue → v ∈ nodes G;
  ki_map : ∀ v, indegree_map !! v =
             if decide (v ∈ nodes G ∧ (0 < remaining G done v)%Z)
             then Some (remaining G done v) else None;
  ki_zero : ∀ v, v ∈ nodes G → remaining G done v = 0%Z ↔ v ∈ done ++ queue;
  ki_order : ∀ u v, v ∈ nx.neighbors G u → v ∈ done → before u v done
}.

(** An occurrence of [KW <dotted-name>;] at index [i] of [content]: the
    keyword, one or more white-space characters, the name (one or more word
    characters or dots) and a semicolon. *)
Definition occurrence (kw content : string) (i : nat) (name : string) : Prop :=
  ∃ ws post,
    drop i (list_ascii_of_string content) =
      list_ascii_of_string kw ++ ws ++ list_ascii_of_string name ++ ";"%char :: post ∧
    ws ≠ [] ∧ Forall (λ c, re.is_space c = true) ws ∧
    list_ascii_of_string name ≠ [] ∧
    Forall (λ c, re.is_name c = true) (list_ascii_of_string name).

(** The names captured when a match is tried at every index, overlapping
    matches included. *)
Fixpoint scan_all (kw s : list ascii) : list (list ascii) :=
  match s with
  | [] => []
  | _ :: s' =>
      match re.match_here kw s with
      | Some (name, _) => name :: scan_all kw s'
      | None => scan_all kw s'
      end
  end.

(** The base name of a path without its last five characters: for a path
    that ends in [.java], the base name with the extension stripped. *)
Definition stem (file_path : string) : string :=
  let base := Str.item_last (Str.split "/" file_path) in
  String.substring 0 (String.length base - 5) base.

(** The input files the builder indexes, and their paths, in input order. *)
Definition java_files (code_files : list (string * string)) : list (string * string) :=
  filter (λ f, Str.endswith f.1 ".java") code_files.

Definition java_paths (code_files : list (string * string)) : list string :=
  (java_files code_files).*1.

(** The key under which the indexing pass files an input file. *)
Definition symbol {py : PySet} (javalang : Javalang) (f : string * string) : string :=
  DependencyGraph.full_name (DependencyGraph.parse_file javalang f.2).1
    (DependencyGraph.class_name f.1).

(** Two iteration orders an interpreter may realise: the elements in the
    order [remove_dups] leaves them, and the same backwards. *)
Definition set_forward : PySet :=
  {| set_of := remove_dups;
     set_of_NoDup := NoDup_remove_dups;
     set_of_elem := λ l x, elem_of_remove_dups l x |}.

Definition set_backward : PySet :=
  {| set_of := λ l, reverse (remove_dups l);
     set_of_NoDup := λ l,
       ltac:(rewrite reverse_Permutation; apply NoDup_remove_dups);
     set_of_elem := λ l x,
       iff_trans (elem_of_reverse x (remove_dups l)) (elem_of_remove_dups l x) |}.

(** Sample inputs: a chain of two files next to a file that is not indexed,
    a file that imports itself, a file with two resolved imports, and two
    files without resolved imports; [files_inner] has [.java] inside its
    base name. *)
Definition files_chain : list (string * string) :=
  [("src/p/A.java", "package p; import p.B; import java.util.List;");
   ("README.md", "import p.A;");
   ("src/p/B.java", "package p;")]%string.

Definition files_self : list (string * string) :=
  [("src/p/A.java", "package p; import p.A;");
   ("src/p/B.java", "package p;")]%string.

Definition files_fan : list (string * string) :=
  [("A.java", "package p; import p.B; import p.C;");
   ("B.java", "package p;");
   ("C.java", "package p;")]%string.

Definition files_inner : list (string * string) :=
  [("src/p/My.javaFile.java", "package p;")]%string.

Definition files_flat : list (string * string) :=
  [("a.java", "package p;");
   ("notes.md", "");
   ("b.java", "import java.util.List;")]%string.

Local Open Scope string_scope.

(** * The rest of the pipeline

    The reader's ignore test and its reordering of the files, the hash of
    the code base, the choice of the language model and of the embeddings,
    and the retry loop of the report synthesis. *)

(** ** Further operations of the Python runtime *)

Module Text.

(** [pattern in s] *)
Fixpoint contains (pattern s : string) : bool :=
  if String.prefix pattern s then true
  else match s with
       | EmptyString => false
       | String _ s' => contains pattern s'
       end.

(** [s.lower()] for code points below 256: the letters A-Z, and the
    capital letters from 192 to 222 except the multiplication sign. *)
Definition lower_char (c : ascii) : ascii :=
  if re.in_range 65 90 c || (re.in_range 192 222 c && negb (re.in_range 215 215 c))
  then ascii_of_N (N_of_ascii c + 32) else c.

Fixpoint lower (s : string) : string :=
  match s with
  | EmptyString => EmptyString
  | String c s' => String (lower_char c) (lower s')
  end.

(** [s.encode('utf-8')] for code points below 256: one byte below 128,
    two bytes from there on. *)
Definition utf8_char (c : ascii) : list Byte.byte :=
  if (N_of_ascii c <? 128)%N then [byte_of_ascii c]
  else [byte_of_ascii (ascii_of_N (192 + N_of_ascii c / 64));
        byte_of_ascii (ascii_of_N (128 + N_of_ascii c mod 64))].

Definition utf8 (s : string) : list Byte.byte :=
  concat (utf8_char <$> list_ascii_of_string s).

(** [os.path.join(a, b)] of [posixpath] *)
Definition path_join (a b : string) : string :=
  if String.prefix "/" b then b
  else if String.eqb a "" || Str.endswith a "/" then String.append a b
  else String.append a (String.append "/" b).

(** [d[k]] on an insertion-ordered dictionary; [None] is the [KeyError],
    and [k in d] is [is_Some]. *)
Fixpoint dict_get {V : Type} (k : string) (d : list (string * V)) : option V :=
  match d with
  | [] => None
  | (k', v) :: d' => if decide (k' = k) then Some v else dict_get k d'
  end.

(** [os.getenv(key)] and [os.getenv(key, default)] *)
Definition getenv (env : gmap string string) (key : string) : option string :=
  env !! key.

Definition getenv_default (env : gmap string string) (key default : string) : string :=
  match env !! key with Some v => v | None => default end.

(** The truth value of an optional string: [None] and the empty string
    are false. *)
Definition truthy (s : option string) : bool :=
  match s with
  | Some s => negb (String.eqb s "")
  | None => false
  end.

End Text.

(** ** analyzer/reader.py *)

Module CodebaseReader.

Definition default_ignore_patterns : list string :=
  [".git"; ".gradle"; "build"; "gradle"; ".idea";
   "llm_analyzer"; "__pycache__"; "node_modules";
   ".DS_Store"; "target"; ".vscode"; ".venv"; ".env";
   "analyzer"].

(** [__init__]: [self.ignore_patterns = ignore_patterns or [...]] *)
Definition init (ignore_patterns : option (list string)) : list string :=
  match ignore_patterns with
  | None | Some [] => default_ignore_patterns
  | Some patterns => patterns
  end.

(** [_should_ignore] *)
Fixpoint should_ignore (ignore_patterns : list string) (path : string) : bool :=
  match ignore_patterns with
  | [] => false
  | pattern :: rest =>
      if Text.contains pattern path then true else should_ignore rest path
  end.

(** [dirs[:] = [d for d in dirs if not self._should_ignore(os.path.join(root, d))]] *)
Definition keep_dirs (ignore_patterns : list string) (root : string)
    (dirs : list string) : list string :=
  filter (λ d, should_ignore ignore_patterns (Text.path_join root d) = false) dirs.

(** One iteration of [for path in sorted_paths]. *)
Definition add_sorted (code_files sorted_files : list (string * string))
    (path : string) : list (string * string) :=
  match Text.dict_get path code_files with
  | Some content => Dict.set path content sorted_files
  | None => sorted_files
  end.

(** One iteration of the second [for path, content in code_files.items()]. *)
Definition add_remaining (sorted_files : list (string * string))
    (entry : string * string) : list (string * string) :=
  if decide (entry.1 ∈ sorted_files.*1) then sorted_files
  else Dict.set entry.1 entry.2 sorted_files.

Definition reorder (code_files : list (string * string)) (sorted_paths : list string)
    : list (string * string) :=
  foldl add_remaining (foldl (add_sorted code_files) [] sorted_paths) code_files.

(** [get_files] from the point where the walk has filled [code_files]:
    the graph is built and sorted, and the dictionary is rebuilt. *)
Definition get_files_after_walk {py : PySet} (javalang : Javalang)
    (code_files : list (string * string)) : outcome (list (string * string)) :=
  match DependencyGraph.run javalang code_files with
  | Return sorted_paths => Return (reorder code_files sorted_paths)
  | Raise e => Raise e
  | Diverge => Diverge
  end.

End CodebaseReader.

(** ** analyzer/llm_factory.py *)

Module llm_factory.

Inductive error : Type :=
  | ImportError (msg : string)
  | ValueError (msg : string).

(** The chat models [get_llm] constructs, with the arguments it passes. *)
Inductive LLM : Type :=
  | ChatGroq (api_key model : string)
  | ChatAnthropic (api_key model : string)
  | ChatOpenAI (api_key model : string)
  | ChatGoogleGenerativeAI (model : string) (google_api_key : option string).

(** Which of the optional packages can be imported. *)
Record packages : Type := {
  langchain_groq : bool;
  langchain_anthropic : bool;
  langchain_openai : bool
}.

(** The three branches that need a package and a key share one shape. *)
Definition with_key (installed : bool) (import_msg : string)
    (api_key : option string) (key_msg : string) (make : string → LLM)
    : error + LLM :=
  if negb installed then inl (ImportError import_msg)
  else match api_key with
       | Some key => if String.eqb key "" then inl (ValueError key_msg)
                     else inr (make key)
       | None => inl (ValueError key_msg)
       end.

Definition get_llm (installed : packages) (env : gmap string string)
    (provider : option string) : error + LLM :=
  let provider :=
    match provider with
    | Some p => if String.eqb p "" then Text.lower (Text.getenv_default env "LLM_PROVIDER" "google")
                else p
    | None => Text.lower (Text.getenv_default env "LLM_PROVIDER" "google")
    end in
  if String.eqb provider "groq" then
    with_key (langchain_groq installed)
      "langchain-groq is not installed. Please run: pipenv install langchain-groq"
      (Text.getenv env "GROQ_API_KEY") "GROQ_API_KEY not found in environment."
      (λ key, ChatGroq key (Text.getenv_default env "GROQ_MODEL" "llama3-70b-8192"))
  else if String.eqb provider "anthropic" then
    with_key (langchain_anthropic installed)
      "langchain-anthropic is not installed. Please run: pipenv install langchain-anthropic"
      (Text.getenv env "ANTHROPIC_API_KEY") "ANTHROPIC_API_KEY not found in environment."
      (λ key, ChatAnthropic key
                (Text.getenv_default env "ANTHROPIC_MODEL" "claude-3-5-sonnet-20240620"))
  else if String.eqb provider "openai" then
    with_key (langchain_openai installed)
      "langchain-openai is not installed. Please run: pipenv install langchain-openai"
      (Text.getenv env "OPENAI_API_KEY") "OPENAI_API_KEY not found in environment."
      (λ key, ChatOpenAI key (Text.getenv_default env "OPENAI_MODEL" "gpt-4o"))
  else
    inr (ChatGoogleGenerativeAI (Text.getenv_default env "GEMINI_MODEL" "gemini-1.5-pro")
           (Text.getenv env "GOOGLE_API_KEY")).

End llm_factory.

(** ** analyzer/rag.py *)

Module RAGEngine.

Inductive Embeddings : Type :=
  | OpenAIEmbeddings (api_key : string)
  | GoogleGenerativeAIEmbeddings (google_api_key : string).

(** [__init__], up to the choice of [self.embeddings]. *)
Definition init (installed : llm_factory.packages) (env : gmap string string)
    (api_key : option string) : llm_factory.error + Embeddings :=
  let api_key := if Text.truthy api_key then api_key else Text.getenv env "GOOGLE_API_KEY" in
  let llm_provider := Text.lower (Text.getenv_default env "LLM_PROVIDER" "google") in
  let openai_key := Text.getenv env "OPENAI_API_KEY" in
  let use_openai_embeddings :=
    String.eqb llm_provider "openai" || (Text.truthy openai_key && negb (Text.truthy api_key)) in
  if use_openai_embeddings then
    match openai_key with
    | Some key =>
        if String.eqb key "" then
          inl (llm_factory.ValueError "OPENAI_API_KEY not found (required for embeddings).")
        else if negb (llm_factory.langchain_openai installed) then
          inl (llm_factory.ImportError "langchain-openai not installed.")
        else inr (OpenAIEmbeddings key)
    | None => inl (llm_factory.ValueError "OPENAI_API_KEY not found (required for embeddings).")
    end
  else
    match api_key with
    | Some key =>
        if String.eqb key "" then
          inl (llm_factory.ValueError "GOOGLE_API_KEY not found (required for default embeddings).")
        else inr (GoogleGenerativeAIEmbeddings key)
    | None =>
        inl (llm_factory.ValueError "GOOGLE_API_KEY not found (required for default embeddings).")
    end.

Section hash.
(** [hashlib.md5]: the hex digest of the bytes the updates have fed. *)
Context (md5_hexdigest : list Byte.byte → string).

(** [for path in sorted_paths], on a hasher that has been fed [hasher];
    [None] is the [KeyError] of [code_files[path]]. *)
Fixpoint feed (code_files : list (string * string)) (sorted_paths : list string)
    (hasher : list Byte.byte) : option (list Byte.byte) :=
  match sorted_paths with
  | [] => Some hasher
  | path :: rest =>
      match Text.dict_get path code_files with
      | None => None
      | Some content =>
          feed code_files rest ((hasher ++ Text.utf8 path) ++ Text.utf8 content)
      end
  end.

Definition calculate_hash (code_files : list (string * string)) : option string :=
  md5_hexdigest <$> feed code_files (sorted code_files.*1) [].
End hash.

End RAGEngine.

(** ** analyzer/llm.py *)

Module LLMCodeAnalyzer.

(** One pass through the [try] block: the dictionary of the parsed
    response, or [str(e)] of the exception [invoke] or [parse] raised. *)
Inductive reply : Type :=
  | Parsed (result : string)
  | Failed (error_str : string).

(** What [analyze_with_rag] returns: the result, the dictionary with the
    key [error], or Python's [None] when the loop runs off its end. *)
Inductive report : Type :=
  | Result (result : string)
  | Error (message : string)
  | NoReport.

Definition max_retries : nat := 3.
Definition retry_delay : nat := 5.

Definition rate_limited (error_str : string) : bool :=
  Text.contains "RESOURCE_EXHAUSTED" error_str || Text.contains "429" error_str.

(** [for attempt in range(max_retries + 1)]: [llm attempt] is what the
    attempt meets; [calls] counts the calls of [invoke] and [slept] lists
    the arguments of [time.sleep]. *)
Fixpoint synthesize (llm : nat → reply) (attempts : list nat)
    (calls : nat) (slept : list nat) : report * nat * list nat :=
  match attempts with
  | [] => (NoReport, calls, slept)
  | attempt :: rest =>
      match llm attempt with
      | Parsed result => (Result result, S calls, slept)
      | Failed error_str =>
          if rate_limited error_str then
            if (attempt <? max_retries)%nat then
              synthesize llm rest (S calls) (slept ++ [retry_delay * 2 ^ attempt]%nat)%list
            else (Error (String.append "Rate limit exceeded: " error_str), S calls, slept)
          else (Error error_str, S calls, slept)
      end
  end.

(** [analyze_with_rag] from [max_retries = 3] on, where the messages are
    built: the report, the number of calls and the sleeps. *)
Definition analyze_with_rag (llm : nat → reply) : report * nat * list nat :=
  synthesize llm (seq 0 (max_retries + 1)%nat) 0%nat [].

End LLMCodeAnalyzer.

Local Close Scope string_scope.

(** * Lemmas *)

(** ** Lists *)

Section list_facts.
Context {A : Type} `{EqDecision A}.

Lemma filter_ext_in (P Q : A → Prop) `{∀ x, Decision (P x)} `{∀ x, Decision (Q x)}
    (l : list A) :
  (∀ x, x ∈ l → P x ↔ Q x) → filter P l = filter Q l.
Proof.
  induction l as [|a l IH]; intros HPQ; [done|].
  rewrite !filter_cons.
  assert (P a ↔ Q a) as Ha by (apply HPQ; left).
  rewrite IH by (intros x Hx; apply HPQ; by right).
  destruct (decide (P a)), (decide (Q a)); tauto.
Qed.

Lemma filter_none (P : A → Prop) `{∀ x, Decision (P x)} (l : list A) :
  (∀ x, x ∈ l → ¬ P x) → filter P l = [].
Proof.
  induction l as [|a l IH]; intros HP; [done|].
  rewrite filter_cons_False by (apply HP; left). apply IH.
  intros x Hx. apply HP. by right.
Qed.

Lemma filter_all (P : A → Prop) `{∀ x, Decision (P x)} (l : list A) :
  (∀ x, x ∈ l → P x) → filter P l = l.
Proof.
  induction l as [|a l IH]; intros HP; [done|].
  rewrite filter_cons_True by (apply HP; left). f_equal. apply IH.
  intros x Hx. apply HP. by right.
Qed.

Lemma length_filter_remove (P : A → Prop) `{∀ x, Decision (P x)} (x : A) (l : list A) :
  NoDup l →
  length (filter P l) =
  length (filter (λ u, P u ∧ u ≠ x) l) + (if decide (x ∈ l ∧ P x) then 1 else 0).
Proof.
  induction 1 as [|a l Hal Hl IH]; [by rewrite decide_False by (rewrite elem_of_nil; tauto)|].
  rewrite !filter_cons.
  destruct (decide (a = x)) as [->|Hne].
  - rewrite (decide_False (P:=_ ∧ x ≠ x)) by tauto.
    assert (filter (λ u, P u ∧ u ≠ x) l = filter P l) as ->.
    { apply filter_ext_in. intros y Hy. split; [tauto|]. intros HP; split; [done|].
      intros ->. done. }
    destruct (decide (P x)).
    + rewrite decide_True by (split; [left|done]). simpl. lia.
    + rewrite decide_False by tauto. lia.
  - destruct (decide (P a)).
    + rewrite (decide_True (P:=_ ∧ a ≠ x)) by tauto. simpl. rewrite IH.
      destruct (decide (x ∈ l ∧ P x)).
      * rewrite decide_True by (rewrite elem_of_cons; tauto). lia.
      * rewrite decide_False by (rewrite elem_of_cons; intros [[?|?] ?]; [congruence|tauto]). lia.
    + rewrite (decide_False (P:=_ ∧ a ≠ x)) by tauto. rewrite IH.
      destruct (decide (x ∈ l ∧ P x)).
      * rewrite decide_True by (rewrite elem_of_cons; tauto). lia.
      * rewrite decide_False by (rewrite elem_of_cons; intros [[?|?] ?]; [congruence|tauto]). lia.
Qed.

Lemma NoDup_subset_length (l k : list A) :
  NoDup l → (∀ x, x ∈ l → x ∈ k) → length l ≤ length k.
Proof. intros Hl Hsub. apply submseteq_length. by apply NoDup_submseteq. Qed.

(** In a finite, non-empty collection where each member has a predecessor
    that is a member too, some member reaches itself. *)
Lemma cycle_from_predecessors (n : nat) :
  ∀ (E : relation A) (R : list A),
    (∀ a b, Decision (E a b)) →
    length R ≤ n → R ≠ [] →
    (∀ v, v ∈ R → ∃ u, u ∈ R ∧ E u v) →
    ∃ x, tc E x x.
Proof.
  induction n as [|n IH]; intros E R dec Hlen Hne Hpred.
  { destruct R; [done|simpl in Hlen; lia]. }
  destruct R as [|v R']; [done|].
  destruct (dec v v) as [Hvv|Hvv]; [exists v; by apply tc_once|].
  set (E' := λ a b, E a b ∨ (E a v ∧ E v b)).
  set (R'' := filter (λ a, a ≠ v) R').
  assert (∀ a, a ∈ v :: R' → a ≠ v → a ∈ R'') as Hin.
  { intros a Ha Hav. apply list_elem_of_filter. split; [done|].
    apply elem_of_cons in Ha as [?|?]; [done|done]. }
  assert (∀ a b, tc E' a b → tc E a b) as Hsub.
  { induction 1 as [a b [?|[? ?]]|a b c [?|[? ?]] _ IHtc].
    - by apply tc_once.
    - eapply tc_l; [done|by apply tc_once].
    - by eapply tc_l.
    - eapply tc_l; [done|]. by eapply tc_l. }
  destruct (decide (R'' = [])) as [Hnil|Hnn].
  - destruct (Hpred v) as (u & Hu & Huv); [left|].
    destruct (decide (u = v)) as [->|Huv']; [done|].
    apply Hin in Hu; [|done]. rewrite Hnil in Hu. by apply elem_of_nil in Hu.
  - destruct (IH E' R'') as [x Hx].
    + intros a b. unfold E'. apply _.
    + pose proof (length_filter (λ a, a ≠ v) R'). simpl in Hlen. unfold R''. lia.
    + done.
    + intros b Hb. apply list_elem_of_filter in Hb as [Hbv Hb].
      destruct (Hpred b) as (a & Ha & Hab); [by right|].
      destruct (decide (a = v)) as [->|Hav].
      * destruct (Hpred v) as (a' & Ha' & Ha'v); [left|].
        destruct (decide (a' = v)) as [->|Ha'v']; [done|].
        exists a'. split; [by apply Hin|]. right. done.
      * exists a. split; [by apply Hin|]. by left.
    + exists x. by apply Hsub.
Qed.
End list_facts.

(** ** The order [before] *)

Lemma before_app_l x y l k : before x y l → before x y (l ++ k).
Proof.
  intros (i & j & Hi & Hj & Hij). exists i, j.
  split_and!; [by apply lookup_app_l_Some|by apply lookup_app_l_Some|done].
Qed.

Lemma before_snoc x y l : x ∈ l → before x y (l ++ [y]).
Proof.
  intros Hx. apply list_elem_of_lookup in Hx as [i Hi].
  exists i, (length l). split_and!.
  - by apply lookup_app_l_Some.
  - by rewrite list_lookup_middle.
  - by eapply lookup_lt_Some.
Qed.

Lemma before_trans x y z l : NoDup l → before x y l → before y z l → before x z l.
Proof.
  intros Hl (i & j & Hi & Hj & Hij) (j' & k & Hj' & Hk & Hjk).
  assert (j = j') as <- by (eapply NoDup_lookup; eauto).
  exists i, k. split_and!; [done|done|lia].
Qed.

Lemma before_irrefl x l : NoDup l → ¬ before x x l.
Proof.
  intros Hl (i & j & Hi & Hj & Hij).
  assert (i = j) by (eapply NoDup_lookup; eauto). lia.
Qed.

Lemma before_reverse x y l : before x y l → before y x (reverse l).
Proof.
  intros (i & j & Hi & Hj & Hij).
  pose proof (lookup_lt_Some _ _ _ Hi). pose proof (lookup_lt_Some _ _ _ Hj).
  exists (length l - S j), (length l - S i). split_and!.
  - rewrite reverse_lookup by lia. rewrite <- Hj. f_equal. lia.
  - rewrite reverse_lookup by lia. rewrite <- Hi. f_equal. lia.
  - lia.
Qed.

Lemma before_elem x y l : before x y l → x ∈ l ∧ y ∈ l.
Proof.
  intros (i & j & Hi & Hj & _). split; by eapply list_elem_of_lookup_2.
Qed.

(** An order that puts every edge forwards leaves no room for a cycle. *)
Lemma ordered_acyclic (G : DiGraph) (l : list string) :
  NoDup l → (∀ u v, nx.has_edge G u v → before u v l) → acyclic G.
Proof.
  intros Hl Hord [x Hx].
  assert (∀ a b, tc (nx.has_edge G) a b → before a b l) as Htc.
  { induction 1 as [a b Hab|a b c Hab _ IH]; [by apply Hord|].
    eapply before_trans; [done|by apply Hord|done]. }
  by eapply before_irrefl, Htc.
Qed.

(** ** The loop of topological_generations *)

Lemma relax_spec (cs : list string) :
  ∀ (im : gmap string Z) (zq : list string),
    NoDup cs →
    (∀ c, c ∈ cs → ∃ d, im !! c = Some d ∧ (1 ≤ d)%Z) →
    ∃ im',
      nx.relax cs im zq = Some (im', zq ++ filter (λ c, im !! c = Some 1%Z) cs) ∧
      ∀ v, im' !! v =
           if decide (v ∈ cs)
           then match im !! v with
                | Some d => if decide (d - 1 = 0)%Z then None else Some (d - 1)%Z
                | None => None
                end
           else im !! v.
Proof.
  induction cs as [|c cs IH]; intros im zq Hnd Hpos.
  { exists im. simpl. rewrite app_nil_r. split; [done|]. by intros v. }
  apply NoDup_cons in Hnd as [Hc Hnd].
  destruct (Hpos c) as (d & Hd & Hd1); [left|].
  simpl. rewrite Hd. rewrite filter_cons.
  destruct (decide (d - 1 = 0)%Z) as [H0|H0].
  - assert (d = 1%Z) as -> by lia.
    set (im1 := delete c (<[c:=(1 - 1)%Z]> im)).
    assert (∀ v, v ≠ c → im1 !! v = im !! v) as Hother.
    { intros v Hv. unfold im1. rewrite lookup_delete_ne by done.
      by rewrite lookup_insert_ne. }
    destruct (IH im1 (zq ++ [c])) as (im' & Hrun & Hlook); [done| |].
    { intros c' Hc'. rewrite Hother by (intros ->; done). apply Hpos. by right. }
    exists im'. split.
    + rewrite Hrun. rewrite decide_True by done. rewrite <- app_assoc. simpl.
      do 2 f_equal. f_equal. f_equal. apply filter_ext_in. intros y Hy.
      rewrite Hother by (intros ->; done). done.
    + intros v. rewrite Hlook. destruct (decide (v = c)) as [->|Hvc].
      * rewrite decide_False by done. rewrite decide_True by left.
        rewrite Hd. rewrite decide_True by done. unfold im1. by rewrite lookup_delete_eq.
      * rewrite Hother by done.
        destruct (decide (v ∈ cs)).
        -- by rewrite decide_True by (by right).
        -- by rewrite decide_False by (rewrite elem_of_cons; tauto).
  - set (im1 := <[c:=(d - 1)%Z]> im).
    assert (∀ v, v ≠ c → im1 !! v = im !! v) as Hother.
    { intros v Hv. unfold im1. by rewrite lookup_insert_ne. }
    destruct (IH im1 zq) as (im' & Hrun & Hlook); [done| |].
    { intros c' Hc'. rewrite Hother by (intros ->; done). apply Hpos. by right. }
    exists im'. split.
    + rewrite Hrun. rewrite decide_False by (rewrite Hd; intros [= ?]; lia).
      do 3 f_equal. apply filter_ext_in. intros y Hy.
      rewrite Hother by (intros ->; done). done.
    + intros v. rewrite Hlook. destruct (decide (v = c)) as [->|Hvc].
      * rewrite decide_False by done. rewrite decide_True by left.
        rewrite Hd. rewrite decide_False by done. unfold im1. by rewrite lookup_insert_eq.
      * rewrite Hother by done.
        destruct (decide (v ∈ cs)).
        -- by rewrite decide_True by (by right).
        -- by rewrite decide_False by (rewrite elem_of_cons; tauto).
Qed.

Lemma wf_edge G u v :
  wf_graph G → v ∈ nx.neighbors G u → u ∈ nodes G ∧ v ∈ nodes G.
Proof. intros [_ Hadj] Huv. by apply (Hadj u). Qed.

Lemma wf_edge_r G u v : wf_graph G → v ∈ nx.neighbors G u → v ∈ nodes G.
Proof. intros Hwf Huv. by destruct (wf_edge G u v Hwf Huv). Qed.

Lemma wf_edge_l G u v : wf_graph G → v ∈ nx.neighbors G u → u ∈ nodes G.
Proof. intros Hwf Huv. by destruct (wf_edge G u v Hwf Huv). Qed.

Lemma wf_neighbors_NoDup G u : wf_graph G → NoDup (nx.neighbors G u).
Proof. intros [_ Hadj]. by apply (Hadj u). Qed.

Section kahn.
Context (G : DiGraph) (Hwf : wf_graph G).

Lemma remaining_nil v : remaining G [] v = nx.in_degree G v.
Proof.
  unfold remaining, nx.in_degree. do 2 f_equal.
  apply list_filter_iff. intros u. split; [tauto|].
  intros ?. split; [done|]. apply not_elem_of_nil.
Qed.

Lemma remaining_nonneg done v : (0 ≤ remaining G done v)%Z.
Proof. unfold remaining. lia. Qed.

Lemma remaining_snoc done x v :
  x ∈ nodes G → x ∉ done →
  remaining G done v =
  (remaining G (done ++ [x]) v + (if decide (v ∈ nx.neighbors G x) then 1 else 0))%Z.
Proof.
  intros Hx Hxd. unfold remaining.
  rewrite (length_filter_remove _ x) by apply Hwf.
  rewrite (list_filter_iff (λ u, (v ∈ nx.neighbors G u ∧ u ∉ done) ∧ u ≠ x)
             (λ u, v ∈ nx.neighbors G u ∧ u ∉ done ++ [x])).
  2:{ intros u. rewrite elem_of_app, list_elem_of_singleton. tauto. }
  destruct (decide (v ∈ nx.neighbors G x)).
  - rewrite decide_True by tauto. lia.
  - rewrite decide_False by tauto. lia.
Qed.

Lemma remaining_zero done u v :
  remaining G done v = 0%Z → v ∈ nx.neighbors G u → u ∈ done.
Proof.
  unfold remaining. intros Hz Huv.
  assert (filter (λ u, v ∈ nx.neighbors G u ∧ u ∉ done) (nodes G) = []) as Hnil.
  { apply length_zero_iff_nil. lia. }
  destruct (decide (u ∈ done)) as [?|Hu]; [done|]. exfalso.
  eapply (filter_nil_not_elem_of _ _ u Hnil); [done|]. by eapply wf_edge_l.
Qed.

Lemma remaining_pos done v :
  (0 < remaining G done v)%Z →
  ∃ u, u ∈ nodes G ∧ (u ∉ done) ∧ v ∈ nx.neighbors G u.
Proof.
  unfold remaining. intros Hp.
  destruct (filter (λ u, v ∈ nx.neighbors G u ∧ u ∉ done) (nodes G)) as [|u l] eqn:Hf;
    [simpl in Hp; lia|].
  assert (u ∈ filter (λ u, v ∈ nx.neighbors G u ∧ u ∉ done) (nodes G)) as Hu
    by (rewrite Hf; left).
  apply list_elem_of_filter in Hu. exists u. tauto.
Qed.

Lemma kahn_init : kahn_inv G [] (nx.zero_indegree0 G) (nx.indegree_map0 G).
Proof.
  destruct Hwf as [Hnd Hadj]. split; simpl.
  - by apply NoDup_filter.
  - intros v Hv. by apply list_elem_of_filter in Hv as [_ ?].
  - intros v. rewrite remaining_nil. unfold nx.indegree_map0.
    destruct (decide (v ∈ nodes G ∧ (0 < nx.in_degree G v)%Z)) as [[Hv Hp]|Hn].
    + apply elem_of_list_to_map_1.
      * rewrite <- list_fmap_compose. simpl. rewrite list_fmap_id. by apply NoDup_filter.
      * apply list_elem_of_fmap. exists v. split; [done|]. by apply list_elem_of_filter.
    + apply not_elem_of_list_to_map_1. rewrite <- list_fmap_compose. simpl.
      rewrite list_fmap_id. rewrite list_elem_of_filter. tauto.
  - intros v Hv. rewrite remaining_nil. unfold nx.zero_indegree0.
    rewrite list_elem_of_filter. tauto.
  - intros u v _ Hv. by apply elem_of_nil in Hv.
Qed.

Lemma kahn_step done x q im im' :
  kahn_inv G done (x :: q) im →
  (∀ v, im' !! v =
        if decide (v ∈ nx.neighbors G x)
        then match im !! v with
             | Some d => if decide (d - 1 = 0)%Z then None else Some (d - 1)%Z
             | None => None
             end
        else im !! v) →
  kahn_inv G (done ++ [x])
    (q ++ filter (λ c, im !! c = Some 1%Z) (nx.neighbors G x)) im'.
Proof.
  intros [Hnd Hnodes Hmap Hzero Hord] Him'.
  assert (x ∈ nodes G) as Hx.
  { apply Hnodes. rewrite elem_of_app, elem_of_cons. tauto. }
  assert (x ∉ done) as Hxd.
  { apply NoDup_app in Hnd as (_ & Hdis & _). intros Hin. apply (Hdis x Hin). left. }
  pose proof (λ v, remaining_snoc done x v Hx Hxd) as Hrs.
  pose proof (remaining_nonneg (done ++ [x])) as Hnn.
  assert (∀ c, c ∈ filter (λ c, im !! c = Some 1%Z) (nx.neighbors G x) ↔
               c ∈ nx.neighbors G x ∧ remaining G done c = 1%Z) as Hnew.
  { intros c. rewrite list_elem_of_filter, Hmap. split.
    - intros [Hc ?]. split; [done|]. by case_decide; simplify_eq.
    - intros [Hc Hr]. split; [|done]. rewrite Hr.
      rewrite decide_True; [done|]. split; [by eapply wf_edge_r|lia]. }
  assert ((done ++ [x]) ++ q ++ filter (λ c, im !! c = Some 1%Z) (nx.neighbors G x)
          = (done ++ x :: q) ++ filter (λ c, im !! c = Some 1%Z) (nx.neighbors G x))
    as Hshape by (by rewrite <- !app_assoc).
  split.
  - rewrite Hshape. apply NoDup_app. split_and!; [done| |by apply NoDup_filter, wf_neighbors_NoDup].
    intros y Hy Hy'. apply Hnew in Hy' as [_ Hy'].
    apply Hzero in Hy; [lia|by apply Hnodes].
  - rewrite Hshape. intros v [Hv|Hv]%elem_of_app; [by apply Hnodes|].
    apply Hnew in Hv as [Hv _]. by eapply wf_edge_r.
  - intros v. rewrite Him', Hmap. specialize (Hrs v). specialize (Hnn v).
    destruct (decide (v ∈ nx.neighbors G x)) as [Hv|Hv].
    + assert (v ∈ nodes G) by (by eapply wf_edge_r).
      rewrite decide_True by (split; [done|lia]).
      repeat case_decide; try done; try lia; try (f_equal; lia).
      exfalso; intuition lia.
    + assert (remaining G (done ++ [x]) v = remaining G done v) as -> by lia.
      done.
  - rewrite Hshape. intros v Hv. specialize (Hrs v). specialize (Hnn v).
    rewrite elem_of_app, Hnew, <- Hzero by done.
    destruct (decide (v ∈ nx.neighbors G x)); [|intuition lia].
    split; [intros ?; right; split; [done|lia]|].
    intros [?|[_ ?]]; lia.
  - intros u v Huv [Hv|Hv]%elem_of_app.
    + apply before_app_l. by apply Hord.
    + apply list_elem_of_singleton in Hv as ->. apply before_snoc.
      eapply remaining_zero; [|done]. apply Hzero; [done|].
      rewrite elem_of_app, elem_of_cons. tauto.
Qed.

Lemma visit_spec (gen : list string) :
  ∀ done im zero,
    kahn_inv G done (gen ++ zero) im →
    ∃ im' zero',
      nx.visit G gen im zero = Some (im', zero') ∧
      kahn_inv G (done ++ gen) zero' im'.
Proof.
  induction gen as [|x gen IH]; intros done im zero Hinv.
  { exists im, zero. rewrite app_nil_r. done. }
  simpl in Hinv. simpl.
  assert (x ∈ nodes G) as Hx.
  { apply (ki_nodes _ _ _ _ Hinv). rewrite elem_of_app, elem_of_cons. tauto. }
  assert (x ∉ done) as Hxd.
  { pose proof (ki_nodup _ _ _ _ Hinv) as Hnd.
    apply NoDup_app in Hnd as (_ & Hdis & _). intros Hin. apply (Hdis x Hin). left. }
  rewrite decide_True by done.
  destruct (relax_spec (nx.neighbors G x) im zero) as (im1 & Hrun & Hlook).
  { by apply wf_neighbors_NoDup. }
  { intros c Hc. rewrite (ki_map _ _ _ _ Hinv).
    pose proof (remaining_snoc done x c Hx Hxd) as Hrs.
    pose proof (remaining_nonneg (done ++ [x]) c).
    rewrite decide_True in Hrs by done.
    exists (remaining G done c). split; [|lia].
    rewrite decide_True; [done|]. split; [by eapply wf_edge_r|lia]. }
  rewrite Hrun.
  pose proof (kahn_step _ _ _ _ _ Hinv Hlook) as Hinv'.
  rewrite <- app_assoc in Hinv'.
  destruct (IH _ _ _ Hinv') as (im' & zero' & Hv & Hfin).
  exists im', zero'. split; [done|]. by rewrite <- app_assoc in Hfin.
Qed.

Lemma generations_spec (fuel : nat) :
  ∀ done zero im,
    kahn_inv G done zero im →
    length (nodes G) < length done + fuel →
    ∃ gens final,
      nx.generations fuel G im zero = Return (gens, final) ∧
      kahn_inv G (done ++ concat gens) [] final.
Proof.
  induction fuel as [|fuel IH]; intros done zero im Hinv Hfuel.
  - destruct zero as [|x q].
    + exists [], im. simpl. by rewrite app_nil_r.
    + exfalso.
      assert (length (done ++ x :: q) ≤ length (nodes G)) as Hle.
      { apply NoDup_subset_length; [apply Hinv|apply Hinv]. }
      rewrite length_app in Hle. simpl in Hle. lia.
  - destruct zero as [|x q].
    + exists [], im. simpl. by rewrite app_nil_r.
    + destruct (visit_spec (x :: q) done im []) as (im' & zero' & Hv & Hinv').
      { by rewrite app_nil_r. }
      destruct (IH _ _ _ Hinv') as (gens & final & Hg & Hfin).
      { rewrite length_app. simpl. lia. }
      exists ((x :: q) :: gens), final. split.
      * cbn [nx.generations]. rewrite Hv, Hg. done.
      * simpl. rewrite <- app_assoc in Hfin. done.
Qed.

(** [topological_sort] neither runs out of generations nor meets the
    [RuntimeError]; it returns a linear extension that lists every node
    once, or raises [NetworkXUnfeasible] on a graph with a cycle. *)
Lemma topological_sort_spec :
  (∃ order,
     nx.topological_sort G = Return order ∧
     NoDup order ∧ (∀ v, v ∈ order ↔ v ∈ nodes G) ∧
     (∀ u v, nx.has_edge G u v → before u v order))
  ∨ (nx.topological_sort G = Raise NetworkXUnfeasible ∧ has_cycle G).
Proof.
  destruct (generations_spec (S (length (nodes G))) [] _ _ kahn_init)
    as (gens & final & Hg & [Hnd Hnodes Hmap Hzero Hord]); [simpl; lia|].
  unfold nx.topological_sort. rewrite Hg. simpl in *.
  rewrite app_nil_r in Hnd, Hnodes, Hzero.
  destruct (decide (final = ∅)) as [->|Hne].
  - left. exists (concat gens). split_and!; [done|done| |].
    + intros v. split; [by apply Hnodes|]. intros Hv. apply Hzero; [done|].
      specialize (Hmap v). rewrite lookup_empty in Hmap.
      pose proof (remaining_nonneg (concat gens) v).
      case_decide; [done|]. destruct (decide (remaining G (concat gens) v = 0%Z)); [done|].
      exfalso. intuition lia.
    + intros u v Huv. pose proof (wf_edge_r G u v Hwf Huv).
      apply Hord; [done|]. apply Hzero; [done|].
      specialize (Hmap v). rewrite lookup_empty in Hmap.
      pose proof (remaining_nonneg (concat gens) v).
      case_decide; [done|]. destruct (decide (remaining G (concat gens) v = 0%Z)); [done|].
      exfalso. intuition lia.
  - right. split; [done|].
    set (R := filter (λ v, v ∉ concat gens) (nodes G)).
    apply (cycle_from_predecessors (length R) (nx.has_edge G) R).
    + intros a b. unfold nx.has_edge. apply _.
    + done.
    + apply map_choose in Hne as (v & d & Hv). rewrite Hmap in Hv.
      case_decide as Hc; [|done]. destruct Hc as [Hc Hp].
      assert (v ∈ R) as HvR.
      { apply list_elem_of_filter. split; [|done]. intros Hin.
        apply Hzero in Hin; [lia|done]. }
      intros HR. rewrite HR in HvR. by apply elem_of_nil in HvR.
    + intros v [Hv HvG]%list_elem_of_filter.
      pose proof (remaining_nonneg (concat gens) v).
      destruct (remaining_pos (concat gens) v) as (u & Hu & Hud & Huv).
      { destruct (decide (remaining G (concat gens) v = 0%Z)) as [Hz|?]; [|lia].
        by apply Hzero in Hz. }
      exists u. split; [|done]. by apply list_elem_of_filter.
Qed.

Lemma topological_sort_acyclic :
  acyclic G →
  ∃ order,
    nx.topological_sort G = Return order ∧
    NoDup order ∧ (∀ v, v ∈ order ↔ v ∈ nodes G) ∧
    (∀ u v, nx.has_edge G u v → before u v order).
Proof. intros Hac. destruct topological_sort_spec as [?|[_ ?]]; [done|by destruct Hac]. Qed.

Lemma topological_sort_cyclic :
  has_cycle G → nx.topological_sort G = Raise NetworkXUnfeasible.
Proof.
  intros Hc. destruct topological_sort_spec as [(order & _ & Hnd & _ & Hord)|[? _]]; [|done].
  by destruct (ordered_acyclic G order Hnd Hord).
Qed.
End kahn.

Lemma topological_sort_returns_acyclic G order :
  wf_graph G → nx.topological_sort G = Return order → acyclic G.
Proof.
  intros Hwf Hrun Hc. rewrite (topological_sort_cyclic G Hwf Hc) in Hrun. done.
Qed.

Lemma visit_no_edges G (gen : list string) im zero :
  (∀ u, nx.neighbors G u = []) → (∀ x, x ∈ gen → x ∈ nodes G) →
  nx.visit G gen im zero = Some (im, zero).
Proof.
  intros Hno. induction gen as [|x gen IH]; intros Hsub; [done|].
  simpl. rewrite decide_True by (apply Hsub; left). rewrite Hno. simpl.
  apply IH. intros y Hy. apply Hsub. by right.
Qed.

(** Without edges there is one generation: the nodes in insertion order. *)
Lemma topological_sort_no_edges G :
  (∀ u, nx.neighbors G u = []) → nx.topological_sort G = Return (nodes G).
Proof.
  intros Hno.
  assert (∀ v, nx.in_degree G v = 0%Z) as Hdeg.
  { intros v. unfold nx.in_degree. rewrite filter_none; [done|].
    intros u _. rewrite Hno. apply not_elem_of_nil. }
  unfold nx.topological_sort, nx.indegree_map0, nx.zero_indegree0.
  rewrite filter_none by (intros v _; rewrite Hdeg; lia).
  rewrite filter_all by (intros v _; by rewrite Hdeg). simpl.
  destruct (nodes G) as [|x l] eqn:HG; [done|].
  cbn [nx.generations]. rewrite visit_no_edges; [|done|by rewrite HG].
  replace (nx.generations (length (x :: l)) G ∅ []) with
    (Return (@nil (list string), (∅ : gmap string Z))) by (by destruct (length (x :: l))).
  rewrite decide_True by done. simpl. by rewrite app_nil_r.
Qed.

(** ** Building graphs with [add_node] and [add_edge] *)

Lemma wf_empty : wf_graph nx.empty.
Proof.
  split; [constructor|]. intros u. unfold nx.neighbors. simpl.
  rewrite lookup_empty. simpl. split; [constructor|]. intros v Hv.
  by apply elem_of_nil in Hv.
Qed.

Lemma neighbors_add_node n G w :
  nx.neighbors (nx.add_node n G) w = nx.neighbors G w.
Proof. unfold nx.add_node. by case_decide. Qed.

Lemma elem_of_add_node x n G :
  x ∈ nodes (nx.add_node n G) ↔ x = n ∨ x ∈ nodes G.
Proof.
  unfold nx.add_node. case_decide; simpl.
  - split; [tauto|]. by intros [->|?].
  - rewrite elem_of_app, list_elem_of_singleton. tauto.
Qed.

Lemma add_node_id n G : n ∈ nodes G → nx.add_node n G = G.
Proof. intros Hn. unfold nx.add_node. by rewrite decide_True. Qed.

Lemma add_node_fresh n G :
  n ∉ nodes G → nodes (nx.add_node n G) = nodes G ++ [n].
Proof. intros Hn. unfold nx.add_node. by rewrite decide_False. Qed.

Lemma wf_add_node n G : wf_graph G → wf_graph (nx.add_node n G).
Proof.
  intros Hwf. split.
  - unfold nx.add_node. case_decide as Hn; simpl; [apply Hwf|].
    apply NoDup_app. split_and!; [apply Hwf| |apply NoDup_singleton].
    intros x Hx ->%list_elem_of_singleton. done.
  - intros u. rewrite neighbors_add_node. split; [by apply wf_neighbors_NoDup|].
    intros v Huv. rewrite !elem_of_add_node.
    destruct (wf_edge G u v Hwf Huv). tauto.
Qed.

Lemma elem_of_add_succ x v l : x ∈ nx.add_succ v l ↔ x = v ∨ x ∈ l.
Proof.
  unfold nx.add_succ. case_decide.
  - split; [tauto|]. by intros [->|?].
  - rewrite elem_of_app, list_elem_of_singleton. tauto.
Qed.

Lemma NoDup_add_succ v l : NoDup l → NoDup (nx.add_succ v l).
Proof.
  intros Hl. unfold nx.add_succ. case_decide; [done|].
  apply NoDup_app. split_and!; [done| |apply NoDup_singleton].
  intros x Hx ->%list_elem_of_singleton. done.
Qed.

Lemma neighbors_add_edge u v G w :
  nx.neighbors (nx.add_edge u v G) w =
  if decide (u = w) then nx.add_succ v (nx.neighbors G u) else nx.neighbors G w.
Proof.
  unfold nx.add_edge. unfold nx.neighbors at 1. simpl.
  rewrite !neighbors_add_node. case_decide as Huw.
  - subst. by rewrite lookup_insert_eq.
  - rewrite lookup_insert_ne by done.
    change (nx.neighbors (nx.add_node v (nx.add_node u G)) w = nx.neighbors G w).
    by rewrite !neighbors_add_node.
Qed.

Lemma elem_of_add_edge x u v G :
  x ∈ nodes (nx.add_edge u v G) ↔ x = u ∨ x = v ∨ x ∈ nodes G.
Proof. unfold nx.add_edge. simpl. rewrite !elem_of_add_node. tauto. Qed.

Lemma has_edge_add_edge u v G a b :
  nx.has_edge (nx.add_edge u v G) a b ↔ (a = u ∧ b = v) ∨ nx.has_edge G a b.
Proof.
  unfold nx.has_edge. rewrite neighbors_add_edge. case_decide as Hua.
  - subst. rewrite elem_of_add_succ. tauto.
  - split; [tauto|]. intros [[-> _]|?]; done.
Qed.

Lemma wf_add_edge u v G : wf_graph G → wf_graph (nx.add_edge u v G).
Proof.
  intros Hwf. split.
  - unfold nx.add_edge. simpl. by apply wf_add_node, wf_add_node, Hwf.
  - intros a. split.
    + rewrite neighbors_add_edge. case_decide; [|by apply wf_neighbors_NoDup].
      by apply NoDup_add_succ, wf_neighbors_NoDup.
    + intros b Hab. apply has_edge_add_edge in Hab. rewrite !elem_of_add_edge.
      destruct Hab as [[-> ->]|Hab]; [tauto|].
      destruct (wf_edge G a b Hwf Hab). tauto.
Qed.

Lemma nodes_add_edge_id u v G :
  u ∈ nodes G → v ∈ nodes G → nodes (nx.add_edge u v G) = nodes G.
Proof.
  intros Hu Hv. unfold nx.add_edge. simpl. by rewrite (add_node_id u), add_node_id.
Qed.

(** Adding an edge the graph already has changes nothing. *)
Lemma add_edge_id u v G :
  u ∈ nodes G → v ∈ nodes G → nx.has_edge G u v → nx.add_edge u v G = G.
Proof.
  intros Hu Hv Huv. unfold nx.add_edge.
  rewrite (add_node_id u), (add_node_id v) by done.
  unfold nx.has_edge in Huv. unfold nx.add_succ. rewrite decide_True by done.
  destruct G as [ns ad]. simpl. f_equal. apply insert_id.
  unfold nx.neighbors in *. simpl in *.
  destruct (ad !! u); [done|]. by apply elem_of_nil in Huv.
Qed.

(** ** Insertion-ordered dictionaries *)

Lemma Dict_set_keys {V} k (v : V) d :
  (Dict.set k v d).*1 = if decide (k ∈ d.*1) then d.*1 else d.*1 ++ [k].
Proof.
  induction d as [|[k' v'] d IH]; [done|]. cbn [Dict.set]. rewrite !fmap_cons.
  cbn [fst]. destruct (decide (k' = k)) as [->|Hk].
  - rewrite fmap_cons. by rewrite decide_True by left.
  - rewrite fmap_cons, IH. cbn [fst]. destruct (decide (k ∈ d.*1)).
    + by rewrite decide_True by (by right).
    + by rewrite decide_False by (rewrite elem_of_cons; intros [?|?]; congruence).
Qed.

Lemma Dict_set_elem {V} k (v : V) d a w :
  (a, w) ∈ Dict.set k v d → (a = k ∧ w = v) ∨ (a, w) ∈ d.
Proof.
  induction d as [|[k' v'] d IH]; simpl.
  - intros [=]%list_elem_of_singleton. by left.
  - destruct (decide (k' = k)) as [->|Hk]; rewrite !elem_of_cons.
    + intros [[=]|?]; [by left|right; by right].
    + intros [?|?]; [right; by left|]. destruct IH as [?|?]; [done|by left|right; by right].
Qed.

(** ** The indexing pass *)

Section build.
Context {py : PySet} (javalang : Javalang).

Lemma java_files_cons f files :
  java_files (f :: files) =
  if Str.endswith f.1 ".java" then f :: java_files files else java_files files.
Proof.
  unfold java_files. rewrite filter_cons.
  destruct (Str.endswith f.1 ".java"); by simpl.
Qed.

Lemma elem_of_java_paths p files :
  p ∈ java_paths files ↔ p ∈ files.*1 ∧ Str.endswith p ".java" = true.
Proof.
  unfold java_paths, java_files. rewrite !list_elem_of_fmap. split.
  - intros ([a c] & -> & [Hend Hin]%list_elem_of_filter). simpl in *. split.
    + by exists (a, c).
    + by apply Is_true_true.
  - intros [([a c] & -> & Hin) Hend]. exists (a, c). split; [done|].
    apply list_elem_of_filter. split; [|done]. by apply Is_true_true.
Qed.

Lemma index_graph files :
  ∀ st, DependencyGraph.graph (foldl (DependencyGraph.index_file javalang) st files) =
        foldl (λ g p, nx.add_node p g) (DependencyGraph.graph st) (java_paths files).
Proof.
  unfold java_paths.
  induction files as [|[p c] files IH]; intros st; [done|].
  rewrite java_files_cons. cbn [foldl]. rewrite IH.
  unfold DependencyGraph.index_file. simpl.
  destruct (Str.endswith p ".java"); simpl; [|done].
  by destruct (DependencyGraph.parse_file javalang c).
Qed.

Lemma index_class_to_file files n :
  ∀ st, DependencyGraph.class_to_file
          (foldl (DependencyGraph.index_file javalang) st files) !! n =
        match last (filter (λ f, symbol javalang f = n) (java_files files)) with
        | Some f => Some f.1
        | None => DependencyGraph.class_to_file st !! n
        end.
Proof.
  induction files as [|[p c] files IH]; intros st; [done|].
  rewrite java_files_cons. cbn [foldl]. rewrite IH.
  unfold DependencyGraph.index_file. simpl.
  destruct (Str.endswith p ".java"); simpl; [|done].
  rewrite filter_cons.
  assert (symbol javalang (p, c) =
          DependencyGraph.full_name (DependencyGraph.parse_file javalang c).1
            (DependencyGraph.class_name p)) as Hsym by done.
  destruct (DependencyGraph.parse_file javalang c) as [pkg imps]. simpl in *.
  destruct (decide (symbol javalang (p, c) = n)) as [Hn|Hn].
  - rewrite last_cons. destruct (last _); [done|]. simpl.
    rewrite <- Hsym, Hn. by rewrite lookup_insert_eq.
  - destruct (last _); [done|]. simpl. rewrite <- Hsym. by rewrite lookup_insert_ne.
Qed.

Lemma index_file_imports files :
  ∀ st, DependencyGraph.file_imports
          (foldl (DependencyGraph.index_file javalang) st files) =
        foldl (λ d f, Dict.set f.1 (DependencyGraph.parse_file javalang f.2).2 d)
          (DependencyGraph.file_imports st) (java_files files).
Proof.
  induction files as [|[p c] files IH]; intros st; [done|].
  rewrite java_files_cons. cbn [foldl]. rewrite IH.
  unfold DependencyGraph.index_file. simpl.
  destruct (Str.endswith p ".java"); simpl; [|done].
  by destruct (DependencyGraph.parse_file javalang c).
Qed.

Lemma foldl_add_node_elem l : ∀ G x,
  x ∈ nodes (foldl (λ g p, nx.add_node p g) G l) ↔ x ∈ nodes G ∨ x ∈ l.
Proof.
  induction l as [|a l IH]; intros G x; simpl.
  - rewrite elem_of_nil. tauto.
  - rewrite IH, elem_of_add_node, elem_of_cons. tauto.
Qed.

Lemma foldl_add_node_adj l : ∀ G,
  adj (foldl (λ g p, nx.add_node p g) G l) = adj G.
Proof.
  induction l as [|a l IH]; intros G; simpl; [done|].
  rewrite IH. unfold nx.add_node. by case_decide.
Qed.

Lemma foldl_add_node_wf l : ∀ G,
  wf_graph G → wf_graph (foldl (λ g p, nx.add_node p g) G l).
Proof.
  induction l as [|a l IH]; intros G HG; simpl; [done|]. by apply IH, wf_add_node.
Qed.

Lemma foldl_add_node_fresh l : ∀ G,
  NoDup (nodes G ++ l) → nodes (foldl (λ g p, nx.add_node p g) G l) = nodes G ++ l.
Proof.
  induction l as [|a l IH]; intros G Hnd; simpl; [by rewrite app_nil_r|].
  assert (a ∉ nodes G) as Ha.
  { apply NoDup_app in Hnd as (_ & Hdis & _). intros Hin. apply (Hdis a Hin). left. }
  rewrite IH; rewrite add_node_fresh by done.
  - by rewrite <- app_assoc.
  - by rewrite <- app_assoc.
Qed.

Lemma foldl_add_node_id l : ∀ G,
  (∀ x, x ∈ l → x ∈ nodes G) → foldl (λ g p, nx.add_node p g) G l = G.
Proof.
  induction l as [|a l IH]; intros G Hsub; simpl; [done|].
  rewrite add_node_id by (apply Hsub; left). apply IH.
  intros x Hx. apply Hsub. by right.
Qed.

Lemma foldl_dict_set_keys (fs : list (string * string)) : ∀ d k,
  k ∈ (foldl (λ d f, Dict.set f.1 (DependencyGraph.parse_file javalang f.2).2 d) d fs).*1 ↔
  k ∈ d.*1 ∨ k ∈ fs.*1.
Proof.
  induction fs as [|f fs IH]; intros d k; simpl.
  - rewrite elem_of_nil. tauto.
  - rewrite IH, Dict_set_keys, elem_of_cons.
    case_decide; [|rewrite elem_of_app, list_elem_of_singleton; tauto].
    split; [tauto|]. intros [?|[->|?]]; tauto.
Qed.

Lemma foldl_dict_set_elem (fs : list (string * string)) : ∀ d a imps,
  (a, imps) ∈ foldl (λ d f, Dict.set f.1 (DependencyGraph.parse_file javalang f.2).2 d) d fs →
  (a, imps) ∈ d ∨
  ∃ c, (a, c) ∈ fs ∧ imps = (DependencyGraph.parse_file javalang c).2.
Proof.
  induction fs as [|[p c] fs IH]; intros d a imps; simpl; [by left|].
  intros [Hin|(c' & Hc' & ->)]%IH.
  - apply Dict_set_elem in Hin as [[-> ->]|?]; [|by left].
    right. exists c. split; [left|done].
  - right. exists c'. split; [by right|done].
Qed.
End build.

(** ** The edge pass *)

Section edges.
Context (class_to_file : gmap string string).

Lemma add_imports_spec a (imports : list string) : ∀ G,
  wf_graph G → a ∈ nodes G →
  (∀ n p, class_to_file !! n = Some p → p ∈ nodes G) →
  wf_graph (foldl (DependencyGraph.add_import class_to_file a) G imports) ∧
  nodes (foldl (DependencyGraph.add_import class_to_file a) G imports) = nodes G ∧
  ∀ x y, nx.has_edge (foldl (DependencyGraph.add_import class_to_file a) G imports) x y ↔
         nx.has_edge G x y ∨
         (x = a ∧ ∃ imp, imp ∈ imports ∧ class_to_file !! imp = Some y).
Proof.
  induction imports as [|imp imports IH]; intros G Hwf Ha Hval; simpl.
  { split_and!; [done|done|]. intros x y. split; [tauto|].
    intros [?|(_ & imp & []%elem_of_nil & _)]. done. }
  unfold DependencyGraph.add_import at 2 4 6.
  destruct (class_to_file !! imp) as [target|] eqn:Himp.
  - assert (target ∈ nodes G) as Ht by (by eapply Hval).
    destruct (IH (nx.add_edge a target G)) as (Hwf' & Hn' & He').
    + by apply wf_add_edge.
    + by rewrite nodes_add_edge_id.
    + intros n p Hp. rewrite nodes_add_edge_id by done. by eapply Hval.
    + split_and!; [done|by rewrite Hn', nodes_add_edge_id|].
      intros x y. rewrite He', has_edge_add_edge. split.
      * intros [[[-> ->]|?]|(-> & i & Hi & Hy)]; [|by left|].
        -- right. split; [done|]. exists imp. split; [left|done].
        -- right. split; [done|]. exists i. split; [by right|done].
      * intros [?|(-> & i & [->|Hi]%elem_of_cons & Hy)]; [left; by right| |].
        -- left. left. split; [done|congruence].
        -- right. split; [done|]. by exists i.
  - destruct (IH G) as (Hwf' & Hn' & He'); [done|done|done|].
    split_and!; [done|done|]. intros x y. rewrite He'. split.
    + intros [?|(-> & i & Hi & Hy)]; [by left|].
      right. split; [done|]. exists i. split; [by right|done].
    + intros [?|(-> & i & [->|Hi]%elem_of_cons & Hy)]; [by left|congruence|].
      right. split; [done|]. by exists i.
Qed.

Lemma edge_pass_spec (fi : list (string * list string)) : ∀ G,
  wf_graph G → (∀ k, k ∈ fi.*1 → k ∈ nodes G) →
  (∀ n p, class_to_file !! n = Some p → p ∈ nodes G) →
  wf_graph (foldl (DependencyGraph.add_imports class_to_file) G fi) ∧
  nodes (foldl (DependencyGraph.add_imports class_to_file) G fi) = nodes G ∧
  ∀ x y, nx.has_edge (foldl (DependencyGraph.add_imports class_to_file) G fi) x y ↔
         nx.has_edge G x y ∨
         ∃ imports imp, (x, imports) ∈ fi ∧ imp ∈ imports ∧
                        class_to_file !! imp = Some y.
Proof.
  induction fi as [|[a imports] fi IH]; intros G Hwf Hkeys Hval; simpl.
  { split_and!; [done|done|]. intros x y. split; [tauto|].
    intros [?|(? & ? & []%elem_of_nil & _)]. done. }
  unfold DependencyGraph.add_imports at 2 4 6. simpl.
  destruct (add_imports_spec a imports G) as (Hwf1 & Hn1 & He1); [done| |done|].
  { apply Hkeys. rewrite fmap_cons. left. }
  destruct (IH (foldl (DependencyGraph.add_import class_to_file a) G imports))
    as (Hwf' & Hn' & He'); [done| | |].
  { intros k Hk. rewrite Hn1. apply Hkeys. rewrite fmap_cons. by right. }
  { intros n p Hp. rewrite Hn1. by eapply Hval. }
  split_and!; [done|by rewrite Hn', Hn1|].
  intros x y. rewrite He', He1. split.
  - intros [[?|(-> & imp & Hi & Hy)]|(imps & imp & Hin & Hi & Hy)]; [by left| |].
    + right. exists imports, imp. split_and!; [left|done|done].
    + right. exists imps, imp. split_and!; [by right|done|done].
  - intros [?|(imps & imp & [[= -> ->]|Hin]%elem_of_cons & Hi & Hy)]; [left; by left| |].
    + left. right. split; [done|]. by exists imp.
    + right. by exists imps, imp.
Qed.

(** An edge pass whose edges are all present already changes nothing. *)
Lemma edge_pass_id (fi : list (string * list string)) G :
  (∀ a imports imp b, (a, imports) ∈ fi → imp ∈ imports →
     class_to_file !! imp = Some b →
     a ∈ nodes G ∧ b ∈ nodes G ∧ nx.has_edge G a b) →
  foldl (DependencyGraph.add_imports class_to_file) G fi = G.
Proof.
  induction fi as [|[a imports] fi IH]; intros Hall; simpl; [done|].
  assert (DependencyGraph.add_imports class_to_file G (a, imports) = G) as ->.
  { unfold DependencyGraph.add_imports. simpl.
    assert (∀ imp b, imp ∈ imports → class_to_file !! imp = Some b →
              a ∈ nodes G ∧ b ∈ nodes G ∧ nx.has_edge G a b) as Hall'.
    { intros imp b Hi Hb. eapply Hall; [left|done|done]. }
    clear Hall IH. induction imports as [|imp imports IH]; simpl; [done|].
    assert (DependencyGraph.add_import class_to_file a G imp = G) as ->.
    { unfold DependencyGraph.add_import.
      destruct (class_to_file !! imp) as [b|] eqn:Hb; [|done].
      destruct (Hall' imp b) as (? & ? & ?); [left|done|]. by apply add_edge_id. }
    apply IH. intros i b Hi Hb. apply (Hall' i b); [by right|done]. }
  apply IH. intros a' imps imp b Hin. apply Hall. by right.
Qed.
End edges.

(** ** build_graph *)

Section build_graph.
Context {py : PySet} (javalang : Javalang).

Lemma index_pass_graph files G :
  DependencyGraph.graph (DependencyGraph.index_pass javalang files G) =
  foldl (λ g p, nx.add_node p g) G (java_paths files).
Proof. unfold DependencyGraph.index_pass. by rewrite index_graph. Qed.

Lemma index_pass_class_to_file files G n :
  DependencyGraph.class_to_file (DependencyGraph.index_pass javalang files G) !! n =
  fst <$> last (filter (λ f, symbol javalang f = n) (java_files files)).
Proof.
  unfold DependencyGraph.index_pass. rewrite index_class_to_file. simpl.
  by destruct (last _).
Qed.

Lemma index_pass_target files G n p :
  DependencyGraph.class_to_file (DependencyGraph.index_pass javalang files G) !! n = Some p →
  p ∈ java_paths files.
Proof.
  rewrite index_pass_class_to_file. intros Hl.
  apply fmap_Some in Hl as (f & Hf & ->).
  apply last_Some_elem_of, list_elem_of_filter in Hf as [_ Hf].
  unfold java_paths. by apply list_elem_of_fmap_2.
Qed.

Lemma index_pass_keys files G k :
  k ∈ (DependencyGraph.file_imports (DependencyGraph.index_pass javalang files G)).*1 ↔
  k ∈ java_paths files.
Proof.
  unfold DependencyGraph.index_pass. rewrite index_file_imports. simpl.
  rewrite foldl_dict_set_keys. simpl. rewrite elem_of_nil. unfold java_paths. tauto.
Qed.

Lemma index_pass_imports files G a imps :
  (a, imps) ∈ DependencyGraph.file_imports (DependencyGraph.index_pass javalang files G) →
  ∃ c, (a, c) ∈ java_files files ∧ imps = (DependencyGraph.parse_file javalang c).2.
Proof.
  unfold DependencyGraph.index_pass. rewrite index_file_imports. simpl.
  intros [[]%elem_of_nil|?]%foldl_dict_set_elem. done.
Qed.

(** The index does not depend on the graph the builder starts from. *)
Lemma index_pass_indep files G G' :
  DependencyGraph.class_to_file (DependencyGraph.index_pass javalang files G) =
  DependencyGraph.class_to_file (DependencyGraph.index_pass javalang files G') ∧
  DependencyGraph.file_imports (DependencyGraph.index_pass javalang files G) =
  DependencyGraph.file_imports (DependencyGraph.index_pass javalang files G').
Proof.
  split.
  - apply map_eq. intros n. by rewrite !index_pass_class_to_file.
  - unfold DependencyGraph.index_pass. by rewrite !index_file_imports.
Qed.

Lemma build_graph_spec files G :
  wf_graph G →
  wf_graph (DependencyGraph.build_graph javalang files G) ∧
  (∀ x, x ∈ nodes (DependencyGraph.build_graph javalang files G) ↔
        x ∈ nodes G ∨ x ∈ java_paths files) ∧
  nodes (DependencyGraph.build_graph javalang files G) =
    nodes (foldl (λ g p, nx.add_node p g) G (java_paths files)) ∧
  ∀ x y, nx.has_edge (DependencyGraph.build_graph javalang files G) x y ↔
         nx.has_edge G x y ∨
         ∃ imports imp,
           (x, imports) ∈ DependencyGraph.file_imports
                            (DependencyGraph.index_pass javalang files G) ∧
           imp ∈ imports ∧
           DependencyGraph.class_to_file
             (DependencyGraph.index_pass javalang files G) !! imp = Some y.
Proof.
  intros Hwf. unfold DependencyGraph.build_graph, DependencyGraph.edge_pass.
  destruct (edge_pass_spec
              (DependencyGraph.class_to_file (DependencyGraph.index_pass javalang files G))
              (DependencyGraph.file_imports (DependencyGraph.index_pass javalang files G))
              (DependencyGraph.graph (DependencyGraph.index_pass javalang files G)))
    as (Hwf' & Hn' & He').
  - rewrite index_pass_graph. by apply foldl_add_node_wf.
  - intros k Hk%index_pass_keys. rewrite index_pass_graph, foldl_add_node_elem. by right.
  - intros n p Hp%index_pass_target. rewrite index_pass_graph, foldl_add_node_elem. by right.
  - split_and!; [done| |by rewrite Hn', index_pass_graph|].
    + intros x. by rewrite Hn', index_pass_graph, foldl_add_node_elem.
    + intros x y. rewrite He'. unfold nx.has_edge, nx.neighbors.
      rewrite index_pass_graph, foldl_add_node_adj. done.
Qed.

Lemma wf_build_graph files :
  wf_graph (DependencyGraph.build_graph javalang files DependencyGraph.init).
Proof. apply build_graph_spec, wf_empty. Qed.

Lemma nodes_build_graph files x :
  x ∈ nodes (DependencyGraph.build_graph javalang files DependencyGraph.init) ↔
  x ∈ java_paths files.
Proof.
  destruct (build_graph_spec files DependencyGraph.init wf_empty) as (_ & Hn & _).
  rewrite Hn. simpl. rewrite elem_of_nil. tauto.
Qed.

Lemma NoDup_java_paths files : NoDup files.*1 → NoDup (java_paths files).
Proof.
  unfold java_paths, java_files. induction files as [|[p c] files IH]; [done|].
  rewrite fmap_cons, NoDup_cons. simpl. intros [Hp Hnd]. rewrite filter_cons.
  case_decide; [|by apply IH]. rewrite fmap_cons. apply NoDup_cons. split; [|by apply IH].
  simpl. intros ([p' c'] & -> & [_ Hin]%list_elem_of_filter)%list_elem_of_fmap.
  apply Hp. apply list_elem_of_fmap. by exists (p', c').
Qed.

(** With distinct keys the nodes are the indexed paths in input order. *)
Lemma nodes_build_graph_NoDup files :
  NoDup files.*1 →
  nodes (DependencyGraph.build_graph javalang files DependencyGraph.init) = java_paths files.
Proof.
  intros Hnd.
  destruct (build_graph_spec files DependencyGraph.init wf_empty) as (_ & _ & -> & _).
  rewrite foldl_add_node_fresh; [done|]. simpl. by apply NoDup_java_paths.
Qed.

(** A second [build_graph] on the same object leaves its graph as it is. *)
Lemma build_graph_again files :
  DependencyGraph.build_graph javalang files
    (DependencyGraph.build_graph javalang files DependencyGraph.init) =
  DependencyGraph.build_graph javalang files DependencyGraph.init.
Proof.
  set (G1 := DependencyGraph.build_graph javalang files DependencyGraph.init).
  destruct (build_graph_spec files DependencyGraph.init wf_empty) as (Hwf1 & Hn1 & _ & He1).
  fold G1 in Hwf1, Hn1, He1.
  unfold DependencyGraph.build_graph at 1, DependencyGraph.edge_pass.
  destruct (index_pass_indep files G1 DependencyGraph.init) as [-> ->].
  rewrite index_pass_graph.
  rewrite foldl_add_node_id by (intros x Hx; apply Hn1; by right).
  apply edge_pass_id. intros a imports imp b Hin Hi Hb.
  assert (nx.has_edge G1 a b) as Hab.
  { apply He1. right. by exists imports, imp. }
  split_and!; [by eapply wf_edge_l|by eapply wf_edge_r|done].
Qed.
End build_graph.

(** ** sorted *)

Global Instance str_le_total : Total str_le.
Proof. intros s1 s2. apply String.leb_total. Qed.

Lemma sorted_Sorted l : Sorted str_le (sorted l).
Proof. apply Sorted_merge_sort, _. Qed.

Lemma sorted_Permutation l : sorted l ≡ₚ l.
Proof. apply merge_sort_Permutation. Qed.

(** ** get_topological_sort *)

Lemma no_edges_neighbors G :
  (∀ u v, ¬ nx.has_edge G u v) → ∀ u, nx.neighbors G u = [].
Proof.
  intros Hno u. destruct (nx.neighbors G u) as [|v l] eqn:Hu; [done|].
  exfalso. apply (Hno u v). unfold nx.has_edge. rewrite Hu. left.
Qed.

(** Both branches: the reversed topological order, or the sorted nodes. *)
Lemma get_topological_sort_spec G :
  wf_graph G →
  (∃ order,
     nx.topological_sort G = Return order ∧
     DependencyGraph.get_topological_sort G = Return (reverse order) ∧
     NoDup order ∧ (∀ v, v ∈ order ↔ v ∈ nodes G) ∧
     (∀ u v, nx.has_edge G u v → before u v order))
  ∨ (nx.topological_sort G = Raise NetworkXUnfeasible ∧
     DependencyGraph.get_topological_sort G = Return (sorted (nodes G)) ∧
     has_cycle G).
Proof.
  intros Hwf. unfold DependencyGraph.get_topological_sort.
  destruct (topological_sort_spec G Hwf) as [(order & -> & ?)|[-> ?]].
  - left. by exists order.
  - by right.
Qed.

(** * The linearizer on built graphs *)

(** C1. If the graph built by [build_graph] is acyclic,
    [get_topological_sort] returns a sequence without repetition in which,
    for every edge A→B (A references B), B occurs at a strictly smaller
    index than A. *)
Theorem C1_referenced_before_referencing {py : PySet} (javalang : Javalang)
    (code_files : list (string * string)) :
  acyclic (DependencyGraph.build_graph javalang code_files DependencyGraph.init) →
  ∃ out,
    DependencyGraph.get_topological_sort
      (DependencyGraph.build_graph javalang code_files DependencyGraph.init) = Return out ∧
    NoDup out ∧
    ∀ A B,
      nx.has_edge (DependencyGraph.build_graph javalang code_files DependencyGraph.init) A B →
      before B A out.
Proof.
  intros Hac.
  destruct (get_topological_sort_spec _ (wf_build_graph javalang code_files))
    as [(order & _ & Hout & Hnd & _ & Hord)|(_ & _ & Hc)]; [|by destruct Hac].
  exists (reverse order). split_and!; [done| |].
  - by rewrite reverse_Permutation.
  - intros A B HAB. by apply before_reverse, Hord.
Qed.

(** The chain [A.java] → [B.java] is acyclic. *)
Lemma C1_witness :
  acyclic (@DependencyGraph.build_graph set_forward None files_chain DependencyGraph.init) ∧
  ∃ out,
    DependencyGraph.get_topological_sort
      (@DependencyGraph.build_graph set_forward None files_chain DependencyGraph.init)
      = Return out ∧
    NoDup out ∧
    ∀ A B,
      nx.has_edge
        (@DependencyGraph.build_graph set_forward None files_chain DependencyGraph.init) A B →
      before B A out.
Proof.
  assert (acyclic
            (@DependencyGraph.build_graph set_forward None files_chain DependencyGraph.init))
    as Hac.
  { eapply topological_sort_returns_acyclic; [apply wf_build_graph|].
    vm_compute. reflexivity. }
  split; [exact Hac|].
  exact (@C1_referenced_before_referencing set_forward None files_chain Hac).
Defined.

(** C2. If the built graph contains a cycle (a self-loop included),
    [get_topological_sort] returns, without raising and within its fuel,
    the list of all node paths sorted in ascending code-point order. *)
Theorem C2_cycle_falls_back_to_sorted {py : PySet} (javalang : Javalang)
    (code_files : list (string * string)) :
  has_cycle (DependencyGraph.build_graph javalang code_files DependencyGraph.init) →
  DependencyGraph.get_topological_sort
    (DependencyGraph.build_graph javalang code_files DependencyGraph.init)
  = Return (sorted (nodes (DependencyGraph.build_graph javalang code_files
                             DependencyGraph.init))) ∧
  Sorted str_le (sorted (nodes (DependencyGraph.build_graph javalang code_files
                                  DependencyGraph.init))) ∧
  sorted (nodes (DependencyGraph.build_graph javalang code_files DependencyGraph.init))
    ≡ₚ nodes (DependencyGraph.build_graph javalang code_files DependencyGraph.init).
Proof.
  intros Hc. split_and!; [|apply sorted_Sorted|apply sorted_Permutation].
  unfold DependencyGraph.get_topological_sort.
  by rewrite (topological_sort_cyclic _ (wf_build_graph javalang code_files) Hc).
Qed.

(** A file that imports its own name: the sorted nodes come back. *)
Lemma C2_witness :
  has_cycle (@DependencyGraph.build_graph set_forward None files_self DependencyGraph.init) ∧
  DependencyGraph.get_topological_sort
    (@DependencyGraph.build_graph set_forward None files_self DependencyGraph.init)
  = Return ["src/p/A.java"; "src/p/B.java"]%string.
Proof.
  assert (has_cycle
            (@DependencyGraph.build_graph set_forward None files_self DependencyGraph.init))
    as Hc.
  { exists "src/p/A.java"%string. apply tc_once. unfold nx.has_edge.
    vm_compute. left. }
  split; [exact Hc|].
  exact (proj1 (@C2_cycle_falls_back_to_sorted set_forward None files_self Hc)).
Defined.

(** C3. For every input mapping, [get_topological_sort] after
    [build_graph] returns a sequence in which each path occurs at most once
    and whose members are exactly the nodes of the graph, which are exactly
    the input keys that end in [.java]; this holds for the reversed
    topological order and for the sorted fallback alike. *)
Theorem C3_every_node_exactly_once {py : PySet} (javalang : Javalang)
    (code_files : list (string * string)) :
  ∃ out,
    DependencyGraph.run javalang code_files = Return out ∧
    NoDup out ∧
    (∀ p, p ∈ out ↔
          p ∈ nodes (DependencyGraph.build_graph javalang code_files DependencyGraph.init)) ∧
    (∀ p, p ∈ out ↔ p ∈ code_files.*1 ∧ Str.endswith p ".java" = true) ∧
    ((∃ order,
        nx.topological_sort
          (DependencyGraph.build_graph javalang code_files DependencyGraph.init)
          = Return order ∧ out = reverse order)
     ∨ (nx.topological_sort
          (DependencyGraph.build_graph javalang code_files DependencyGraph.init)
          = Raise NetworkXUnfeasible ∧
        out = sorted (nodes (DependencyGraph.build_graph javalang code_files
                               DependencyGraph.init)))).
Proof.
  pose proof (wf_build_graph javalang code_files) as Hwf.
  unfold DependencyGraph.run.
  destruct (get_topological_sort_spec _ Hwf)
    as [(order & Hts & Hout & Hnd & Hmem & _)|(Hts & Hout & _)].
  - exists (reverse order). split_and!; [done| | | |].
    + by rewrite reverse_Permutation.
    + intros p. by rewrite elem_of_reverse.
    + intros p. by rewrite elem_of_reverse, Hmem, nodes_build_graph, elem_of_java_paths.
    + left. by exists order.
  - eexists. split_and!; [done| | | |].
    + rewrite sorted_Permutation. apply Hwf.
    + intros p. by rewrite sorted_Permutation.
    + intros p. by rewrite sorted_Permutation, nodes_build_graph, elem_of_java_paths.
    + by right.
Qed.

(** C10. When the keys of the input are distinct and the built graph has no
    edge, [get_topological_sort] returns the [.java] paths in the reverse of
    their order in the input. *)
Theorem C10_no_edges_reverse_insertion {py : PySet} (javalang : Javalang)
    (code_files : list (string * string)) :
  NoDup code_files.*1 →
  (∀ u v, ¬ nx.has_edge
              (DependencyGraph.build_graph javalang code_files DependencyGraph.init) u v) →
  DependencyGraph.run javalang code_files = Return (reverse (java_paths code_files)).
Proof.
  intros Hnd Hno. unfold DependencyGraph.run, DependencyGraph.get_topological_sort.
  rewrite topological_sort_no_edges by (by apply no_edges_neighbors).
  by rewrite nodes_build_graph_NoDup.
Qed.

(** Two files without resolved import: the later one comes first. *)
Lemma C10_witness :
  NoDup files_flat.*1 ∧
  (∀ u v, ¬ nx.has_edge
              (@DependencyGraph.build_graph set_forward None files_flat DependencyGraph.init)
              u v) ∧
  @DependencyGraph.run set_forward None files_flat = Return ["b.java"; "a.java"]%string.
Proof.
  assert (NoDup files_flat.*1) as Hnd by (apply (bool_decide_unpack _); vm_compute; exact I).
  assert (∀ u v, ¬ nx.has_edge
            (@DependencyGraph.build_graph set_forward None files_flat DependencyGraph.init)
            u v) as Hno.
  { intros u v. unfold nx.has_edge, nx.neighbors.
    replace (adj (@DependencyGraph.build_graph set_forward None files_flat
                    DependencyGraph.init)) with (∅ : gmap string (list string))
      by (vm_compute; reflexivity).
    rewrite lookup_empty. apply not_elem_of_nil. }
  split_and!; [exact Hnd|exact Hno|].
  exact (@C10_no_edges_reverse_insertion set_forward None files_flat Hnd Hno).
Defined.

(** * The builder *)

(** C5. Every edge of the built graph joins two nodes of the graph, both of
    them paths of indexed input files, and comes from an import of the
    source file that is a key of the index and is filed under the target;
    an import that is not a key of the index leaves the graph as it is. *)
Theorem C5_edges_join_indexed_files {py : PySet} (javalang : Javalang)
    (code_files : list (string * string)) (A B : string) :
  nx.has_edge (DependencyGraph.build_graph javalang code_files DependencyGraph.init) A B →
  A ∈ nodes (DependencyGraph.build_graph javalang code_files DependencyGraph.init) ∧
  B ∈ nodes (DependencyGraph.build_graph javalang code_files DependencyGraph.init) ∧
  A ∈ java_paths code_files ∧ B ∈ java_paths code_files ∧
  (∃ content imp,
     (A, content) ∈ java_files code_files ∧
     imp ∈ (DependencyGraph.parse_file javalang content).2 ∧
     DependencyGraph.class_to_file
       (DependencyGraph.index_pass javalang code_files DependencyGraph.init) !! imp
     = Some B) ∧
  (∀ imp file_path G,
     DependencyGraph.class_to_file
       (DependencyGraph.index_pass javalang code_files DependencyGraph.init) !! imp = None →
     DependencyGraph.add_import
       (DependencyGraph.class_to_file
          (DependencyGraph.index_pass javalang code_files DependencyGraph.init))
       file_path G imp = G).
Proof.
  intros HAB.
  pose proof (wf_build_graph javalang code_files) as Hwf.
  destruct (wf_edge _ _ _ Hwf HAB) as [HA HB].
  split_and!; [done|done|by apply nodes_build_graph in HA|by apply nodes_build_graph in HB| |].
  - destruct (build_graph_spec javalang code_files DependencyGraph.init wf_empty)
      as (_ & _ & _ & He).
    apply He in HAB as [HAB|(imports & imp & Hin & Hi & Hres)].
    + unfold nx.has_edge, nx.neighbors in HAB. simpl in HAB.
      rewrite lookup_empty in HAB. by apply elem_of_nil in HAB.
    + apply index_pass_imports in Hin as (content & Hc & ->). by exists content, imp.
  - intros imp file_path G Hnone. unfold DependencyGraph.add_import. by rewrite Hnone.
Qed.

(** The edge of the chain joins two indexed paths. *)
Lemma C5_witness :
  nx.has_edge
    (@DependencyGraph.build_graph set_forward None files_chain DependencyGraph.init)
    "src/p/A.java" "src/p/B.java" ∧
  "src/p/A.java"%string ∈ java_paths files_chain ∧
  "src/p/B.java"%string ∈ java_paths files_chain.
Proof.
  assert (nx.has_edge
            (@DependencyGraph.build_graph set_forward None files_chain DependencyGraph.init)
            "src/p/A.java" "src/p/B.java") as HAB.
  { unfold nx.has_edge. vm_compute. left. }
  split; [exact HAB|].
  pose proof (@C5_edges_join_indexed_files set_forward None files_chain _ _ HAB)
    as (_ & _ & HA & HB & _).
  exact (conj HA HB).
Defined.

(** C6. The index holds at most one path per fully-qualified name: the path
    of the last indexed input file that computes this name, and none when
    no indexed file computes it. *)
Theorem C6_last_file_wins {py : PySet} (javalang : Javalang)
    (code_files : list (string * string)) (G : DiGraph) (name : string) :
  DependencyGraph.class_to_file (DependencyGraph.index_pass javalang code_files G) !! name =
  fst <$> last (filter (λ f, symbol javalang f = name) (java_files code_files)).
Proof. apply index_pass_class_to_file. Qed.

(** * Determinism *)

(** C9, as amended. In one interpreter process, where the iteration order
    of sets is fixed, [build_graph] followed by [get_topological_sort]
    returns a sequence, and running both again on the same object returns
    the same sequence. *)
Theorem C9_rerun_same_output {py : PySet} (javalang : Javalang)
    (code_files : list (string * string)) :
  ∃ out,
    DependencyGraph.run javalang code_files = Return out ∧
    DependencyGraph.get_topological_sort
      (DependencyGraph.build_graph javalang code_files
         (DependencyGraph.build_graph javalang code_files DependencyGraph.init))
    = Return out.
Proof.
  rewrite build_graph_again. unfold DependencyGraph.run.
  destruct (get_topological_sort_spec _ (wf_build_graph javalang code_files))
    as [(order & _ & Hout & _)|(_ & Hout & _)]; eexists; split; exact Hout.
Qed.

(** C9, as stated, fails: the sequence is not a function of the input
    mapping alone.  The edges of a file are added in the iteration order of
    its set of imports, which string hashing fixes for one interpreter
    process only; on [files_fan] the two orders of the set of [A.java] give
    [C.java; B.java; A.java] and [B.java; C.java; A.java]. *)
Lemma C9_counterexample :
  ¬ (∀ (py1 py2 : PySet) (javalang : Javalang) (code_files : list (string * string)),
       @DependencyGraph.run py1 javalang code_files =
       @DependencyGraph.run py2 javalang code_files).
Proof.
  intros Hfun. specialize (Hfun set_forward set_backward None files_fan).
  vm_compute in Hfun. discriminate Hfun.
Qed.

(** * The regex fallback *)

Lemma name_not_space c : re.is_name c = true → re.is_space c = false.
Proof. destruct c as [[] [] [] [] [] [] [] []]; vm_compute; congruence. Qed.

Lemma semicolon_not_name : re.is_name ";" = false.
Proof. reflexivity. Qed.

Lemma span_spec p s run rest :
  re.span p s = (run, rest) →
  s = run ++ rest ∧ Forall (λ c, p c = true) run ∧
  match rest with [] => True | c :: _ => p c = false end.
Proof.
  revert run rest. induction s as [|c s IH]; intros run rest; simpl.
  { intros [= <- <-]. by split_and!. }
  destruct (p c) eqn:Hc.
  - destruct (re.span p s) as [run' rest'] eqn:Hs. intros [= <- <-].
    destruct (IH _ _ eq_refl) as (-> & Hrun & Hrest).
    split_and!; [done|by constructor|done].
  - intros [= <- <-]. by split_and!.
Qed.

Lemma span_app p run rest :
  Forall (λ c, p c = true) run →
  match rest with [] => True | c :: _ => p c = false end →
  re.span p (run ++ rest) = (run, rest).
Proof.
  intros Hrun Hrest. induction Hrun as [|c run Hc _ IH]; simpl.
  - destruct rest as [|c rest]; [done|]. simpl. by rewrite Hrest.
  - by rewrite Hc, IH.
Qed.

Lemma strip_prefix_spec kw s rest :
  re.strip_prefix kw s = Some rest ↔ s = kw ++ rest.
Proof.
  revert s. induction kw as [|k kw IH]; intros s; simpl.
  - split; [by intros [= ->]|by intros ->].
  - destruct s as [|c s]; [done|].
    destruct (Ascii.eqb_spec k c) as [->|Hne].
    + rewrite IH. split; [by intros ->|by intros [= ->]].
    + split; [done|]. intros [= -> _]. done.
Qed.

(** A match at the head is a decomposition of the text, and there is at
    most one: the greedy scan loses nothing. *)
Lemma match_here_iff kw s name n :
  re.match_here kw s = Some (name, n) ↔
  ∃ ws post,
    s = kw ++ ws ++ name ++ ";"%char :: post ∧
    ws ≠ [] ∧ Forall (λ c, re.is_space c = true) ws ∧
    name ≠ [] ∧ Forall (λ c, re.is_name c = true) name ∧
    n = length kw + length ws + length name + 1.
Proof.
  unfold re.match_here. split.
  - destruct (re.strip_prefix kw s) as [rest|] eqn:Hkw; [|done].
    apply strip_prefix_spec in Hkw as ->.
    destruct (re.span re.is_space rest) as [ws rest2] eqn:Hws.
    apply span_spec in Hws as (-> & Hws & _).
    destruct ws as [|w ws]; [done|].
    destruct (re.span re.is_name rest2) as [nm rest3] eqn:Hnm.
    apply span_spec in Hnm as (-> & Hnm & _).
    destruct nm as [|c nm]; [done|].
    destruct rest3 as [|semi post]; [done|].
    destruct (Ascii.eqb_spec semi ";"%char) as [->|Hne].
    + intros [= <- <-]. exists (w :: ws), post. by split_and!.
    + intros Hm. exfalso. revert Hm.
      by destruct semi as [[] [] [] [] [] [] [] []].
  - intros (ws & post & -> & Hne & Hws & Hnn & Hnm & ->).
    assert (re.strip_prefix kw (kw ++ ws ++ name ++ ";"%char :: post)
            = Some (ws ++ name ++ ";"%char :: post)) as -> by (by apply strip_prefix_spec).
    rewrite (span_app re.is_space ws); [|done|].
    2:{ destruct name as [|c nm]; [done|]. simpl. apply name_not_space.
        by apply Forall_cons in Hnm as [? _]. }
    destruct ws as [|w ws]; [done|].
    rewrite (span_app re.is_name name); [|done|done].
    destruct name as [|c nm]; [done|]. done.
Qed.

(** Two texts that agree up to their first character outside a class agree
    on where that character is. *)
Lemma first_outside_unique (p : ascii → bool) l1 a r1 l2 b r2 :
  l1 ++ a :: r1 = l2 ++ b :: r2 →
  Forall (λ c, p c = true) l1 → Forall (λ c, p c = true) l2 →
  p a = false → p b = false →
  l1 = l2 ∧ a = b.
Proof.
  intros Heq H1. revert l2 Heq.
  induction H1 as [|c l1 Hc _ IH]; intros l2 Heq H2 Ha Hb.
  - destruct l2 as [|c2 l2]; simpl in Heq; [by injection Heq|].
    injection Heq as -> _. apply Forall_cons in H2 as [? _]. congruence.
  - destruct l2 as [|c2 l2]; simpl in Heq.
    + injection Heq as -> _. congruence.
    + injection Heq as -> Heq. apply Forall_cons in H2 as [_ H2].
      destruct (IH l2 Heq H2 Ha Hb) as [-> ->]. done.
Qed.

Section keyword.
Context (k0 : ascii) (ktl : list ascii).
Context (Hname : Forall (λ c, re.is_name c = true) (k0 :: ktl)).
Context (Hfresh : k0 ∉ ktl).

(** A match leaves no room for another match to start inside it: the
    scan of [findall], which resumes behind a match, misses none. *)
Lemma no_overlap s name n d :
  re.match_here (k0 :: ktl) s = Some (name, n) → 0 < d < n →
  re.match_here (k0 :: ktl) (drop d s) = None.
Proof.
  intros Hm Hd.
  destruct (re.match_here (k0 :: ktl) (drop d s)) as [[name' n']|] eqn:Hm'; [exfalso|done].
  apply match_here_iff in Hm as (ws & post & -> & Hne & Hws & Hnn & Hnm & ->).
  apply match_here_iff in Hm' as (ws' & post' & Heq & Hne' & Hws' & _).
  destruct ws' as [|w ws']; [done|]. apply Forall_cons in Hws' as [Hw _].
  assert (re.is_space k0 = false) as Hk0.
  { apply name_not_space. by apply Forall_cons in Hname as [? _]. }
  destruct (decide (d < length (k0 :: ktl))) as [Hlt|Hge].
  - destruct d as [|d']; [lia|]. simpl in Heq, Hlt.
    rewrite drop_app_le in Heq by lia.
    destruct (lookup_lt_is_Some_2 ktl d') as [c Hc]; [lia|].
    rewrite (drop_S _ _ _ Hc) in Heq. injection Heq as -> _.
    apply Hfresh. by eapply list_elem_of_lookup_2.
  - rewrite drop_app_ge in Heq by lia.
    set (e := d - length (k0 :: ktl)) in *.
    destruct (decide (e < length ws)) as [Hlt|Hge'].
    + rewrite drop_app_le in Heq by lia.
      destruct (lookup_lt_is_Some_2 ws e) as [c Hc]; [lia|].
      rewrite (drop_S _ _ _ Hc) in Heq. injection Heq as -> _.
      assert (re.is_space k0 = true); [|congruence].
      eapply Forall_forall in Hws; [done|]. by eapply list_elem_of_lookup_2.
    + rewrite drop_app_ge in Heq by lia.
      rewrite drop_app_le in Heq by (simpl in *; unfold e; lia).
      change (drop (e - length ws) name ++ ";"%char :: post =
              (k0 :: ktl) ++ w :: ws' ++ name' ++ ";"%char :: post') in Heq.
      apply (first_outside_unique re.is_name) in Heq as [_ <-].
      * done.
      * by apply Forall_drop.
      * done.
      * done.
      * destruct (re.is_name w) eqn:Hnw; [|done].
        apply name_not_space in Hnw. congruence.
Qed.

Lemma match_here_nil : re.match_here (k0 :: ktl) [] = None.
Proof. done. Qed.

Lemma scan_all_drop (k : nat) : ∀ s,
  (∀ d, d < k → re.match_here (k0 :: ktl) (drop d s) = None) →
  scan_all (k0 :: ktl) s = scan_all (k0 :: ktl) (drop k s).
Proof.
  induction k as [|k IH]; intros s Hnone; [done|].
  destruct s as [|c s]; [done|]. simpl.
  pose proof (Hnone 0 ltac:(lia)) as H0. simpl in H0. rewrite H0.
  apply IH. intros d Hd. apply (Hnone (S d)). lia.
Qed.

(** The scan of [findall] finds what a scan of every index finds. *)
Lemma findall_from_scan_all (s : list ascii) : ∀ k,
  (∀ d, d < k → re.match_here (k0 :: ktl) (drop d s) = None) →
  re.findall_from (k0 :: ktl) k s = scan_all (k0 :: ktl) (drop k s).
Proof.
  induction s as [|c s IH]; intros k Hnone; [by destruct k|].
  destruct k as [|k]; simpl.
  - destruct (re.match_here (k0 :: ktl) (c :: s)) as [[name n]|] eqn:Hm.
    + f_equal.
      assert (∀ d, d < n - 1 → re.match_here (k0 :: ktl) (drop d s) = None) as Hfree.
      { intros d Hd. apply (no_overlap (c :: s) name n (S d) Hm). lia. }
      rewrite IH by done. symmetry. by apply scan_all_drop.
    + rewrite (IH 0) by (intros d Hd; lia). done.
  - apply IH. intros d Hd. apply (Hnone (S d)). lia.
Qed.

Lemma findall_from_0 s : re.findall_from (k0 :: ktl) 0 s = scan_all (k0 :: ktl) s.
Proof. rewrite findall_from_scan_all; [done|]. intros d Hd. lia. Qed.

Lemma elem_of_scan_all name s :
  name ∈ scan_all (k0 :: ktl) s ↔
  ∃ i n, re.match_here (k0 :: ktl) (drop i s) = Some (name, n).
Proof.
  induction s as [|c s IH]; simpl.
  - split; [by intros []%elem_of_nil|]. intros (i & n & Hm). by rewrite drop_nil in Hm.
  - split.
    + destruct (re.match_here (k0 :: ktl) (c :: s)) as [[name' n']|] eqn:Hm.
      * intros [->|Hin]%elem_of_cons; [by exists 0, n'|].
        apply IH in Hin as (i & n & Hi). by exists (S i), n.
      * intros Hin. apply IH in Hin as (i & n & Hi). by exists (S i), n.
    + intros ([|i] & n & Hi); simpl in Hi.
      * rewrite Hi. left.
      * assert (name ∈ scan_all (k0 :: ktl) s) by (apply IH; by exists i, n).
        destruct (re.match_here (k0 :: ktl) (c :: s)) as [[name' n']|]; [by right|done].
Qed.

(** The head of the scan is the leftmost match. *)
Lemma head_scan_all s :
  match scan_all (k0 :: ktl) s with
  | name :: _ =>
      ∃ i n, re.match_here (k0 :: ktl) (drop i s) = Some (name, n) ∧
             ∀ j, j < i → re.match_here (k0 :: ktl) (drop j s) = None
  | [] => ∀ j, re.match_here (k0 :: ktl) (drop j s) = None
  end.
Proof.
  induction s as [|c s IH]; simpl.
  - intros j. by rewrite drop_nil.
  - destruct (re.match_here (k0 :: ktl) (c :: s)) as [[name' n']|] eqn:Hm.
    + exists 0, n'. split; [done|]. intros j Hj. lia.
    + destruct (scan_all (k0 :: ktl) s) as [|name rest].
      * intros [|j]; [done|]. apply IH.
      * destruct IH as (i & n & Hi & Hleft). exists (S i), n. split; [done|].
        intros [|j] Hj; [done|]. apply Hleft. lia.
Qed.
End keyword.

Lemma occurrence_match kw content i name :
  occurrence kw content i name ↔
  ∃ n, re.match_here (list_ascii_of_string kw) (drop i (list_ascii_of_string content))
       = Some (list_ascii_of_string name, n).
Proof.
  unfold occurrence. split.
  - intros (ws & post & Heq & ? & ? & ? & ?). eexists. apply match_here_iff.
    exists ws, post. by split_and!.
  - intros (n & Hm). apply match_here_iff in Hm as (ws & post & Heq & ? & ? & ? & ? & _).
    by exists ws, post.
Qed.

Lemma findall_scan_all k0 ktl content :
  Forall (λ c, re.is_name c = true) (k0 :: ktl) → k0 ∉ ktl →
  re.findall (String k0 (string_of_list_ascii ktl)) content =
  string_of_list_ascii <$> scan_all (k0 :: ktl) (list_ascii_of_string content).
Proof.
  intros Hname Hfresh. unfold re.findall. simpl.
  rewrite list_ascii_of_string_of_list_ascii. by rewrite findall_from_0.
Qed.

Lemma package_keyword :
  Forall (λ c, re.is_name c = true) (list_ascii_of_string "package") ∧
  "p"%char ∉ list_ascii_of_string "ackage".
Proof.
  split.
  - simpl. repeat constructor.
  - simpl. rewrite !elem_of_cons, elem_of_nil. intros H. repeat destruct H as [H|H]; done.
Qed.

Lemma import_keyword :
  Forall (λ c, re.is_name c = true) (list_ascii_of_string "import") ∧
  "i"%char ∉ list_ascii_of_string "mport".
Proof.
  split.
  - simpl. repeat constructor.
  - simpl. rewrite !elem_of_cons, elem_of_nil. intros H. repeat destruct H as [H|H]; done.
Qed.

(** C8. When [parse] returns the sentinel, [build_graph] goes on with the
    fallback extraction.  The fallback takes as namespace the name of the
    leftmost occurrence of [package <dotted-name>;], or the empty string
    when there is no occurrence, and as references the set of the names of
    all occurrences of [import <dotted-name>;]; as a total function it
    returns for every text. *)
Theorem C8_fallback_extraction {py : PySet} (content : string) :
  (∀ javalang : Javalang,
     (JavaParser.parse javalang content).1 = None →
     DependencyGraph.parse_file javalang content = DependencyGraph.fallback content) ∧
  ((∃ i, occurrence "package" content i (DependencyGraph.fallback content).1 ∧
         ∀ j name, occurrence "package" content j name → i ≤ j)
   ∨ ((DependencyGraph.fallback content).1 = ""%string ∧
      ∀ j name, ¬ occurrence "package" content j name)) ∧
  NoDup (DependencyGraph.fallback content).2 ∧
  ∀ name, name ∈ (DependencyGraph.fallback content).2 ↔
          ∃ i, occurrence "import" content i name.
Proof.
  destruct package_keyword as [Hpn Hpf]. destruct import_keyword as [Hin Hif].
  unfold DependencyGraph.fallback. cbn [fst snd].
  change "package"%string with (String "p" (string_of_list_ascii (list_ascii_of_string "ackage"))).
  change "import"%string with (String "i" (string_of_list_ascii (list_ascii_of_string "mport"))).
  rewrite !findall_scan_all by done.
  split_and!.
  - intros javalang Hnone. unfold DependencyGraph.parse_file.
    destruct (JavaParser.parse javalang content) as [[pkg|] imps]; [done|].
    unfold DependencyGraph.fallback.
    change "package"%string
      with (String "p" (string_of_list_ascii (list_ascii_of_string "ackage"))).
    change "import"%string
      with (String "i" (string_of_list_ascii (list_ascii_of_string "mport"))).
    by rewrite !findall_scan_all.
  - pose proof (head_scan_all "p" (list_ascii_of_string "ackage")
                  (list_ascii_of_string content)) as Hhead.
    destruct (scan_all _ (list_ascii_of_string content)) as [|name rest].
    + right. split; [done|]. intros j name (n & Hm)%occurrence_match.
      simpl in Hm. by rewrite Hhead in Hm.
    + left. destruct Hhead as (i & n & Hm & Hleft). exists i. split.
      * apply occurrence_match. exists n. simpl.
        by rewrite list_ascii_of_string_of_list_ascii.
      * intros j name' (n' & Hm')%occurrence_match.
        destruct (decide (i ≤ j)) as [?|Hlt]; [done|].
        simpl in Hm'. rewrite Hleft in Hm' by lia. done.
  - apply set_of_NoDup.
  - intros name. rewrite set_of_elem, list_elem_of_fmap. split.
    + intros (nm & -> & (i & n & Hm)%elem_of_scan_all).
      exists i. apply occurrence_match. exists n. simpl.
      by rewrite list_ascii_of_string_of_list_ascii.
    + intros (i & (n & Hm)%occurrence_match).
      exists (list_ascii_of_string name). split.
      * by rewrite string_of_list_ascii_of_string.
      * apply elem_of_scan_all. by exists i, n.
Qed.

(** * The parser and its caller *)

Lemma set_of_nil {py : PySet} : set_of [] = [].
Proof.
  destruct (set_of []) as [|x l] eqn:Hs; [done|].
  assert (x ∈ set_of []) as Hx by (rewrite Hs; left).
  apply (proj1 (set_of_elem [] x)) in Hx. by apply elem_of_nil in Hx.
Qed.

(** C7, as stated, fails: without a grammar engine [parse] hands Python's
    [None] to its caller as namespace. *)
Lemma C7_counterexample :
  ¬ (∀ (py : PySet) (javalang : Javalang) (content : string),
       (JavaParser.parse javalang content).1 ≠ None).
Proof. intros Hall. by apply (Hall set_forward None ""%string). Qed.

(** C7, as amended. [parse] returns for every text; it returns the sentinel
    ([None] and the empty set) exactly when there is no grammar engine or
    the engine raises, and the tree's package and imports otherwise.  The
    fallback belongs to the caller: [build_graph] replaces the sentinel by
    the regex extraction and keeps any other result. *)
Theorem C7_parse_returns_sentinel {py : PySet} (javalang : Javalang) (content : string) :
  (JavaParser.parse javalang content = (None, []) ↔
   javalang = None ∨ ∃ javalang_parse,
     javalang = Some javalang_parse ∧ javalang_parse content = None) ∧
  (∀ javalang_parse tree,
     javalang = Some javalang_parse → javalang_parse content = Some tree →
     JavaParser.parse javalang content =
     (Some (default ""%string (package tree)), set_of (imports tree))) ∧
  ((JavaParser.parse javalang content).1 = None →
   DependencyGraph.parse_file javalang content = DependencyGraph.fallback content) ∧
  (∀ pkg, (JavaParser.parse javalang content).1 = Some pkg →
     DependencyGraph.parse_file javalang content =
     (pkg, (JavaParser.parse javalang content).2)).
Proof.
  unfold DependencyGraph.parse_file, JavaParser.parse.
  destruct javalang as [javalang_parse|]; [destruct (javalang_parse content) as [tree|] eqn:Ht|];
    rewrite ?set_of_nil; simpl; split_and!; try done.
  - split; [done|]. intros [?|(f & [= <-] & Hf)]; [done|congruence].
  - intros f tree' [= <-] Hf. congruence.
  - intros pkg [= <-]. done.
  - split; [|done]. intros _. right. by exists javalang_parse.
  - intros f tree' [= <-] Hf. congruence.
  - split; [|done]. intros _. by left.
Qed.

(** Where the type name is the base name without its extension: whenever
    [.java] occurs in the base name as its suffix only. *)

Lemma string_length_append (s t : string) :
  String.length (String.append s t) = String.length s + String.length t.
Proof. induction s as [|c s IH]; simpl; [done|by rewrite IH]. Qed.

Lemma prefix_append (s1 s2 : string) :
  String.prefix s1 s2 = true → ∃ post, s2 = String.append s1 post.
Proof.
  revert s2. induction s1 as [|a s1 IH]; intros s2; simpl.
  - intros _. by exists s2.
  - destruct s2 as [|b s2]; simpl; [by destruct s1|].
    destruct (ascii_dec a b) as [->|?]; [|done].
    intros [post ->]%IH. by exists post.
Qed.

Lemma substring_append_l (s t : string) :
  String.substring 0 (String.length s) (String.append s t) = s.
Proof.
  induction s as [|c s IH]; simpl; [by destruct t|by rewrite IH].
Qed.

Lemma replace_only_suffix (s : string) :
  (∀ pre post,
     String.append s ".java" = String.append pre (String.append ".java" post) →
     post = ""%string) →
  Str.replace ".java" "" (String.append s ".java") = s.
Proof.
  unfold Str.replace. induction s as [|c s IH]; intros Hsuffix; [done|].
  change (String.append (String c s) ".java") with (String c (String.append s ".java")).
  cbn [Str.replace_from].
  destruct (String.prefix ".java" (String c (String.append s ".java"))) eqn:Hpre.
  - exfalso. apply prefix_append in Hpre as [post Hpost].
    assert (post = ""%string) as -> by (apply (Hsuffix ""%string); exact Hpost).
    apply (f_equal String.length) in Hpost. simpl in Hpost.
    rewrite string_length_append in Hpost. simpl in Hpost. lia.
  - f_equal. apply IH. intros pre post Heq.
    apply (Hsuffix (String c pre) post).
    change (String c (String.append s ".java") =
            String c (String.append pre (String.append ".java" post))).
    by rewrite Heq.
Qed.

Lemma class_name_stem (file_path s : string) :
  Str.item_last (Str.split "/" file_path) = String.append s ".java" →
  (∀ pre post,
     String.append s ".java" = String.append pre (String.append ".java" post) →
     post = ""%string) →
  DependencyGraph.class_name file_path = s ∧ stem file_path = s.
Proof.
  intros Hbase Hsuffix. unfold DependencyGraph.class_name, stem. rewrite Hbase. split.
  - by apply replace_only_suffix.
  - rewrite string_length_append. simpl.
    replace (String.length s + 5 - 5) with (String.length s) by lia.
    apply substring_append_l.
Qed.

(** C4 fails on the code: [replace] removes every [.java] of the base name,
    not only the extension.  For [src/p/My.javaFile.java] the type name is
    [MyFile] where the base name without extension is [My.javaFile], and
    the file is indexed under [p.MyFile]. *)
Theorem C4_replace_removes_every_extension :
  Str.endswith "src/p/My.javaFile.java" ".java" = true ∧
  DependencyGraph.class_name "src/p/My.javaFile.java" = "MyFile"%string ∧
  stem "src/p/My.javaFile.java" = "My.javaFile"%string ∧
  DependencyGraph.class_to_file
    (@DependencyGraph.index_pass set_forward None files_inner DependencyGraph.init)
    !! "p.MyFile"%string = Some "src/p/My.javaFile.java"%string ∧
  DependencyGraph.class_to_file
    (@DependencyGraph.index_pass set_forward None files_inner DependencyGraph.init)
    !! "p.My.javaFile"%string = None.
Proof. by vm_compute. Qed.

(** * More on the builder and the linearizer *)

Lemma Dict_set_fresh {V} k (v : V) d : k ∉ d.*1 → Dict.set k v d = d ++ [(k, v)].
Proof.
  induction d as [|[k' v'] d IH]; intros Hk; [done|]. simpl.
  rewrite fmap_cons, not_elem_of_cons in Hk. destruct Hk as [Hne Hk]. simpl in Hne.
  rewrite decide_False by congruence. by rewrite IH.
Qed.

Section more_graph.
Context {py : PySet} (javalang : Javalang).

Lemma foldl_dict_set_fresh (fs : list (string * string)) : ∀ d,
  NoDup (d.*1 ++ fs.*1) →
  foldl (λ d f, Dict.set f.1 (DependencyGraph.parse_file javalang f.2).2 d) d fs =
  d ++ ((λ f, (f.1, (DependencyGraph.parse_file javalang f.2).2)) <$> fs).
Proof.
  induction fs as [|f fs IH]; intros d Hnd; simpl; [by rewrite app_nil_r|].
  rewrite fmap_cons in Hnd.
  assert (f.1 ∉ d.*1) as Hf.
  { apply NoDup_app in Hnd as (_ & Hdis & _). intros Hin. apply (Hdis _ Hin). left. }
  rewrite Dict_set_fresh by done. rewrite IH.
  - rewrite <- app_assoc. done.
  - rewrite fmap_app. simpl. rewrite <- app_assoc. done.
Qed.

Lemma index_pass_file_imports_NoDup files G :
  NoDup files.*1 →
  DependencyGraph.file_imports (DependencyGraph.index_pass javalang files G) =
  (λ f, (f.1, (DependencyGraph.parse_file javalang f.2).2)) <$> java_files files.
Proof.
  intros Hnd. unfold DependencyGraph.index_pass. rewrite index_file_imports. simpl.
  rewrite foldl_dict_set_fresh; [done|]. simpl. by apply NoDup_java_paths.
Qed.

Lemma elem_of_java_files f files :
  f ∈ java_files files ↔ f ∈ files ∧ Str.endswith f.1 ".java" = true.
Proof.
  unfold java_files. rewrite list_elem_of_filter. split.
  - intros [Hend ?]. split; [done|]. by apply Is_true_true.
  - intros [? Hend]. split; [|done]. by apply Is_true_true.
Qed.

(** An import that names an indexed file becomes an edge to the last
    indexed file of that name. *)
Lemma resolved_import_edge files A content imp target :
  NoDup files.*1 →
  (A, content) ∈ files → Str.endswith A ".java" = true →
  imp ∈ (DependencyGraph.parse_file javalang content).2 →
  last (filter (λ f, symbol javalang f = imp) (java_files files)) = Some target →
  nx.has_edge (DependencyGraph.build_graph javalang files DependencyGraph.init) A target.1.
Proof.
  intros Hnd HA Hend Himp Hlast.
  destruct (build_graph_spec javalang files DependencyGraph.init wf_empty) as (_ & _ & _ & He).
  apply He. right. exists (DependencyGraph.parse_file javalang content).2, imp.
  split_and!; [|done|].
  - rewrite index_pass_file_imports_NoDup by done.
    apply list_elem_of_fmap. exists (A, content). split; [done|].
    by apply elem_of_java_files.
  - rewrite index_pass_class_to_file, Hlast. done.
Qed.

Lemma run_spec files :
  ∃ out,
    DependencyGraph.run javalang files = Return out ∧ NoDup out ∧
    ∀ p, p ∈ out ↔ p ∈ java_paths files.
Proof.
  pose proof (wf_build_graph javalang files) as Hwf. unfold DependencyGraph.run.
  destruct (get_topological_sort_spec _ Hwf)
    as [(order & _ & Hout & Hnd & Hmem & _)|(_ & Hout & _)].
  - exists (reverse order). split_and!; [done|by rewrite reverse_Permutation|].
    intros p. by rewrite elem_of_reverse, Hmem, nodes_build_graph.
  - eexists. split_and!; [done| |].
    + rewrite sorted_Permutation. apply Hwf.
    + intros p. by rewrite sorted_Permutation, nodes_build_graph.
Qed.
End more_graph.

(** X1. With distinct keys, an import of an indexed file that is the
    fully-qualified name of indexed files becomes an edge from the
    importing file to the last indexed file of that name. *)
Theorem X1_resolved_import_gives_edge {py : PySet} (javalang : Javalang)
    (code_files : list (string * string)) (A content imp : string)
    (target : string * string) :
  NoDup code_files.*1 →
  (A, content) ∈ code_files → Str.endswith A ".java" = true →
  imp ∈ (DependencyGraph.parse_file javalang content).2 →
  last (filter (λ f, symbol javalang f = imp) (java_files code_files)) = Some target →
  nx.has_edge (DependencyGraph.build_graph javalang code_files DependencyGraph.init)
    A target.1.
Proof. apply resolved_import_edge. Qed.

Lemma X1_witness :
  nx.has_edge
    (@DependencyGraph.build_graph set_forward None files_chain DependencyGraph.init)
    "src/p/A.java" "src/p/B.java".
Proof.
  apply (@X1_resolved_import_gives_edge set_forward None files_chain
           "src/p/A.java" "package p; import p.B; import java.util.List;" "p.B"
           ("src/p/B.java", "package p;")%string).
  - apply (bool_decide_unpack _). vm_compute. exact I.
  - left.
  - reflexivity.
  - apply (bool_decide_unpack _). vm_compute. exact I.
  - vm_compute. reflexivity.
Defined.

(** X2. With distinct keys, one indexed file that imports the name it is
    itself indexed under makes the whole result the sorted list of the
    indexed paths, whatever the other files import. *)
Theorem X2_self_import_sorts_everything {py : PySet} (javalang : Javalang)
    (code_files : list (string * string)) (A content : string) :
  NoDup code_files.*1 →
  (A, content) ∈ code_files → Str.endswith A ".java" = true →
  symbol javalang (A, content) ∈ (DependencyGraph.parse_file javalang content).2 →
  last (filter (λ f, symbol javalang f = symbol javalang (A, content))
          (java_files code_files)) = Some (A, content) →
  DependencyGraph.run javalang code_files = Return (sorted (java_paths code_files)).
Proof.
  intros Hnd HA Hend Himp Hlast.
  pose proof (resolved_import_edge javalang code_files A content _ _ Hnd HA Hend Himp Hlast)
    as Hedge.
  unfold DependencyGraph.run, DependencyGraph.get_topological_sort.
  rewrite (topological_sort_cyclic _ (wf_build_graph javalang code_files)).
  - by rewrite nodes_build_graph_NoDup.
  - exists A. by apply tc_once.
Qed.

Lemma X2_witness :
  @DependencyGraph.run set_forward None files_self
  = Return (sorted (java_paths files_self)).
Proof.
  apply (@X2_self_import_sorts_everything set_forward None files_self
           "src/p/A.java" "package p; import p.A;").
  - apply (bool_decide_unpack _). vm_compute. exact I.
  - left.
  - reflexivity.
  - apply (bool_decide_unpack _). vm_compute. exact I.
  - vm_compute. reflexivity.
Defined.

(** X3. A second [build_graph] with the same input on the same
    [DependencyGraph] leaves [self.graph] as the first call left it: no
    node or edge is added twice and none is reordered. *)
Theorem X3_build_graph_idempotent {py : PySet} (javalang : Javalang)
    (code_files : list (string * string)) :
  DependencyGraph.build_graph javalang code_files
    (DependencyGraph.build_graph javalang code_files DependencyGraph.init) =
  DependencyGraph.build_graph javalang code_files DependencyGraph.init.
Proof. apply build_graph_again. Qed.

(** X4. [build_graph] never resets [self.graph]: on a [DependencyGraph]
    that was built from other files before, the old edges stay and the
    result of [get_topological_sort] lists, once each, the indexed paths
    of both inputs. *)
Theorem X4_build_graph_accumulates {py : PySet} (javalang : Javalang)
    (old_files code_files : list (string * string)) :
  (∀ a b,
     nx.has_edge (DependencyGraph.build_graph javalang old_files DependencyGraph.init) a b →
     nx.has_edge
       (DependencyGraph.build_graph javalang code_files
          (DependencyGraph.build_graph javalang old_files DependencyGraph.init)) a b) ∧
  ∃ out,
    DependencyGraph.get_topological_sort
      (DependencyGraph.build_graph javalang code_files
         (DependencyGraph.build_graph javalang old_files DependencyGraph.init))
    = Return out ∧
    NoDup out ∧
    ∀ p, p ∈ out ↔ p ∈ java_paths old_files ∨ p ∈ java_paths code_files.
Proof.
  pose proof (wf_build_graph javalang old_files) as Hwf1.
  destruct (build_graph_spec javalang code_files _ Hwf1) as (Hwf2 & Hn & _ & He).
  split.
  - intros a b Hab. apply He. by left.
  - destruct (get_topological_sort_spec _ Hwf2)
      as [(order & _ & Hout & Hnd & Hmem & _)|(_ & Hout & _)].
    + exists (reverse order). split_and!; [done|by rewrite reverse_Permutation|].
      intros p. by rewrite elem_of_reverse, Hmem, Hn, nodes_build_graph.
    + eexists. split_and!; [done| |].
      * rewrite sorted_Permutation. apply Hwf2.
      * intros p. by rewrite sorted_Permutation, Hn, nodes_build_graph.
Qed.

(** X5. An input without a key that ends in [.java], the empty input
    included, gives the empty list and no exception. *)
Theorem X5_nothing_to_index {py : PySet} (javalang : Javalang)
    (code_files : list (string * string)) :
  (∀ p, p ∈ code_files.*1 → Str.endswith p ".java" = false) →
  DependencyGraph.run javalang code_files = Return [].
Proof.
  intros Hnone. destruct (run_spec javalang code_files) as (out & -> & _ & Hmem).
  destruct out as [|p out]; [done|]. exfalso.
  assert (p ∈ java_paths code_files) as Hp by (apply Hmem; left).
  apply elem_of_java_paths in Hp as [Hp Hend]. rewrite (Hnone p Hp) in Hend. done.
Qed.

Lemma X5_witness :
  @DependencyGraph.run set_forward None [("README.md", "import p.A;")]%string = Return [].
Proof.
  apply (@X5_nothing_to_index set_forward None).
  intros p Hp. simpl in Hp. apply list_elem_of_singleton in Hp as ->. reflexivity.
Defined.

(** ** The directory of a path and the name it is indexed under *)

Lemma split_nonempty sep s : Str.split sep s ≠ [].
Proof.
  destruct s as [|c s]; simpl; [done|].
  destruct (Ascii.eqb c sep); [done|]. by destruct (Str.split sep s).
Qed.

Lemma split_no_sep sep s :
  sep ∉ list_ascii_of_string s → Str.split sep s = [s].
Proof.
  induction s as [|c s IH]; simpl; [done|]. intros Hsep.
  apply not_elem_of_cons in Hsep as [Hc Hs].
  destruct (Ascii.eqb_spec c sep) as [->|_]; [done|]. by rewrite IH.
Qed.

Lemma item_last_cons w ws : ws ≠ [] → Str.item_last (w :: ws) = Str.item_last ws.
Proof. intros Hne. unfold Str.item_last. destruct ws; [done|]. by rewrite last_cons_cons. Qed.

Lemma split_tail sep (dir name : string) :
  ∃ w ws, Str.split sep (String.append dir (String sep name)) = w :: ws ∧ ws ≠ [] ∧
          Str.item_last ws = Str.item_last (Str.split sep name).
Proof.
  induction dir as [|c dir IH]; simpl.
  - rewrite Ascii.eqb_refl. exists EmptyString, (Str.split sep name).
    split_and!; [done|apply split_nonempty|done].
  - destruct IH as (w & ws & Hs & Hne & Hlast). rewrite Hs.
    destruct (Ascii.eqb c sep).
    + exists EmptyString, (w :: ws). split_and!; [done|done|]. by rewrite item_last_cons.
    + by exists (String c w), ws.
Qed.

Lemma item_last_split_join (dir name : string) :
  "/"%char ∉ list_ascii_of_string name →
  Str.item_last (Str.split "/" (String.append dir (String "/" name))) = name.
Proof.
  intros Hname. destruct (split_tail "/" dir name) as (w & ws & -> & Hne & Hlast).
  rewrite item_last_cons by done. rewrite Hlast. by rewrite split_no_sep.
Qed.

(** X6. The name a file is indexed under depends on its base name and on
    its text only: the directory part of the path does not enter it. *)
Theorem X6_symbol_ignores_directory {py : PySet} (javalang : Javalang)
    (dir name content : string) :
  "/"%char ∉ list_ascii_of_string name →
  symbol javalang (String.append dir (String "/" name), content) =
  symbol javalang (name, content).
Proof.
  intros Hname. unfold symbol, DependencyGraph.class_name. simpl.
  rewrite item_last_split_join by done. by rewrite split_no_sep.
Qed.

Lemma X6_witness :
  @symbol set_forward None ("src/other/A.java", "package p;")%string =
  @symbol set_forward None ("A.java", "package p;")%string.
Proof.
  apply (@X6_symbol_ignores_directory set_forward None "src/other" "A.java" "package p;").
  apply (bool_decide_unpack _). vm_compute. exact I.
Defined.

(** * The reader *)

Lemma dict_get_Some {V} (d : list (string * V)) k v :
  NoDup d.*1 → Text.dict_get k d = Some v ↔ (k, v) ∈ d.
Proof.
  induction d as [|[k' v'] d IH]; cbn [Text.dict_get].
  - intros _. split; [done|]. by intros []%elem_of_nil.
  - rewrite fmap_cons, NoDup_cons. cbn [fst]. intros [Hk' Hnd]. rewrite elem_of_cons.
    destruct (decide (k' = k)) as [->|Hne].
    + split; [intros [= ->]; by left|]. intros [[= ->]|Hin]; [done|].
      exfalso. apply Hk'. apply list_elem_of_fmap. by exists (k, v).
    + rewrite IH by done. split; [by right|]. intros [[= ? ?]|?]; [congruence|done].
Qed.

Lemma dict_get_is_Some {V} (d : list (string * V)) k :
  k ∈ d.*1 → is_Some (Text.dict_get k d).
Proof.
  induction d as [|[k' v'] d IH]; cbn [Text.dict_get].
  - by intros []%elem_of_nil.
  - rewrite fmap_cons, elem_of_cons. cbn [fst]. intros [->|Hin].
    + by rewrite decide_True.
    + destruct (decide (k' = k)); [done|]. by apply IH.
Qed.

(** The entries of [code_files] at the keys [paths], in the order of
    [paths]. *)
Lemma foldl_add_sorted code_files (paths : list string) : ∀ acc,
  NoDup (acc.*1 ++ paths) → (∀ p, p ∈ paths → p ∈ code_files.*1) →
  ∃ entries,
    foldl (CodebaseReader.add_sorted code_files) acc paths = acc ++ entries ∧
    entries.*1 = paths ∧
    ∀ p c, (p, c) ∈ entries → Text.dict_get p code_files = Some c.
Proof.
  induction paths as [|p paths IH]; intros acc Hnd Hsub; simpl.
  { exists []. rewrite app_nil_r. split_and!; [done|done|]. by intros ? ? []%elem_of_nil. }
  assert (p ∉ acc.*1) as Hp.
  { apply NoDup_app in Hnd as (_ & Hdis & _). intros Hin. apply (Hdis _ Hin). left. }
  destruct (dict_get_is_Some code_files p) as [c Hc]; [apply Hsub; left|].
  unfold CodebaseReader.add_sorted at 2. rewrite Hc, Dict_set_fresh by done.
  destruct (IH (acc ++ [(p, c)])) as (entries & Hrun & Hkeys & Hget).
  - rewrite fmap_app. simpl. by rewrite <- app_assoc.
  - intros q Hq. apply Hsub. by right.
  - exists ((p, c) :: entries). split_and!.
    + rewrite Hrun. by rewrite <- app_assoc.
    + rewrite fmap_cons. simpl. by rewrite Hkeys.
    + intros q d [[= -> ->]|Hin]%elem_of_cons; [done|by apply Hget].
Qed.

Lemma foldl_add_remaining (rest : list (string * string)) : ∀ acc,
  NoDup rest.*1 →
  foldl CodebaseReader.add_remaining acc rest =
  acc ++ filter (λ e, e.1 ∉ acc.*1) rest.
Proof.
  induction rest as [|[k v] rest IH]; intros acc Hnd; simpl; [by rewrite app_nil_r|].
  rewrite fmap_cons, NoDup_cons in Hnd. simpl in Hnd. destruct Hnd as [Hk Hnd].
  unfold CodebaseReader.add_remaining at 2. simpl. rewrite filter_cons. simpl.
  destruct (decide (k ∈ acc.*1)) as [Hin|Hin].
  - rewrite decide_False by tauto. by apply IH.
  - rewrite decide_True by done. rewrite Dict_set_fresh by done. rewrite IH by done.
    rewrite <- app_assoc. simpl. do 2 f_equal. apply filter_ext_in.
    intros [k' v'] Hin'. simpl. rewrite fmap_app, elem_of_app. simpl.
    rewrite list_elem_of_singleton. split; [tauto|]. intros Hk' [?| ->]; [done|].
    apply Hk. apply list_elem_of_fmap. by exists (k, v').
Qed.

Lemma reorder_spec code_files sorted_paths :
  NoDup code_files.*1 → NoDup sorted_paths →
  (∀ p, p ∈ sorted_paths → p ∈ code_files.*1) →
  ∃ entries,
    CodebaseReader.reorder code_files sorted_paths =
      entries ++ filter (λ e, e.1 ∉ sorted_paths) code_files ∧
    entries.*1 = sorted_paths ∧
    ∀ p c, (p, c) ∈ entries → (p, c) ∈ code_files.
Proof.
  intros Hnd Hsp Hsub. unfold CodebaseReader.reorder.
  destruct (foldl_add_sorted code_files sorted_paths []) as (entries & -> & Hkeys & Hget);
    [done|done|].
  simpl. rewrite foldl_add_remaining by done. rewrite Hkeys.
  exists entries. split_and!; [done|done|].
  intros p c Hin. apply dict_get_Some; [done|by apply Hget].
Qed.

Lemma reorder_Permutation code_files sorted_paths :
  NoDup code_files.*1 → NoDup sorted_paths →
  (∀ p, p ∈ sorted_paths → p ∈ code_files.*1) →
  CodebaseReader.reorder code_files sorted_paths ≡ₚ code_files.
Proof.
  intros Hnd Hsp Hsub.
  destruct (reorder_spec code_files sorted_paths Hnd Hsp Hsub) as (entries & -> & Hkeys & Hin).
  rewrite <- (filter_app_complement (λ e, e.1 ∈ sorted_paths) code_files) at 2.
  apply Permutation_app; [|done].
  apply NoDup_Permutation.
  - apply (NoDup_fmap_1 fst). by rewrite Hkeys.
  - apply NoDup_filter. by apply (NoDup_fmap_1 fst).
  - intros [p c]. rewrite list_elem_of_filter. simpl. split.
    + intros He. split; [|by apply Hin]. rewrite <- Hkeys.
      apply list_elem_of_fmap. by exists (p, c).
    + intros [Hp Hpc]. rewrite <- Hkeys in Hp.
      apply list_elem_of_fmap in Hp as ([p' c'] & Heq & Hp'). simpl in Heq. subst p'.
      assert (c' = c) as ->; [|done].
      apply Hin in Hp'. apply (dict_get_Some _ _ _ Hnd) in Hp', Hpc. congruence.
Qed.

Lemma filter_fmap_fst (P : string * string → Prop) (Q : string → Prop)
    `{∀ e, Decision (P e)} `{∀ p, Decision (Q p)} (l : list (string * string)) :
  (∀ e, e ∈ l → P e ↔ Q e.1) → (filter P l).*1 = filter Q l.*1.
Proof.
  induction l as [|e l IH]; intros HPQ; [done|].
  rewrite fmap_cons, !filter_cons.
  assert (P e ↔ Q e.1) as He by (apply HPQ; left).
  rewrite <- IH by (intros e' He'; apply HPQ; by right).
  destruct (decide (P e)), (decide (Q e.1)); try tauto; done.
Qed.

(** X7. With distinct keys, the dictionary [get_files] returns holds the
    entries of the dictionary the walk collected, each exactly once and
    with its text: the sorting loses, adds and alters no file. *)
Theorem X7_get_files_keeps_every_file {py : PySet} (javalang : Javalang)
    (code_files : list (string * string)) :
  NoDup code_files.*1 →
  ∃ sorted_files,
    CodebaseReader.get_files_after_walk javalang code_files = Return sorted_files ∧
    sorted_files ≡ₚ code_files.
Proof.
  intros Hnd. unfold CodebaseReader.get_files_after_walk.
  destruct (run_spec javalang code_files) as (out & -> & Hout & Hmem).
  eexists. split; [done|]. apply reorder_Permutation; [done|done|].
  intros p Hp. apply Hmem in Hp. by apply elem_of_java_paths in Hp as [? _].
Qed.

Lemma X7_witness :
  ∃ sorted_files,
    @CodebaseReader.get_files_after_walk set_forward None files_chain = Return sorted_files ∧
    sorted_files ≡ₚ files_chain.
Proof.
  apply (@X7_get_files_keeps_every_file set_forward None files_chain).
  apply (bool_decide_unpack _). vm_compute. exact I.
Defined.

(** X8. With distinct keys, the keys of the dictionary [get_files]
    returns are the result of [get_topological_sort] followed by the keys
    that do not end in [.java], these in the order of the walk. *)
Theorem X8_get_files_order {py : PySet} (javalang : Javalang)
    (code_files : list (string * string)) :
  NoDup code_files.*1 →
  ∃ sorted_paths sorted_files,
    DependencyGraph.run javalang code_files = Return sorted_paths ∧
    CodebaseReader.get_files_after_walk javalang code_files = Return sorted_files ∧
    sorted_files.*1 =
      sorted_paths ++ filter (λ p, Str.endswith p ".java" = false) code_files.*1.
Proof.
  intros Hnd. unfold CodebaseReader.get_files_after_walk.
  destruct (run_spec javalang code_files) as (out & -> & Hout & Hmem).
  exists out. eexists. split_and!; [done|done|].
  destruct (reorder_spec code_files out Hnd Hout) as (entries & -> & Hkeys & _).
  { intros p Hp. apply Hmem in Hp. by apply elem_of_java_paths in Hp as [? _]. }
  rewrite fmap_app, Hkeys. f_equal. apply filter_fmap_fst.
  intros e He. rewrite Hmem, elem_of_java_paths.
  assert (e.1 ∈ code_files.*1) by (by apply list_elem_of_fmap_2).
  destruct (Str.endswith e.1 ".java"); split; [tauto|done|done|intros _ [_ ?]; done].
Qed.

Lemma X8_witness :
  ∃ sorted_paths sorted_files,
    @DependencyGraph.run set_forward None files_chain = Return sorted_paths ∧
    @CodebaseReader.get_files_after_walk set_forward None files_chain = Return sorted_files ∧
    sorted_files.*1 =
      sorted_paths ++ filter (λ p, Str.endswith p ".java" = false) files_chain.*1.
Proof.
  apply (@X8_get_files_order set_forward None files_chain).
  apply (bool_decide_unpack _). vm_compute. exact I.
Defined.

(** X9. With distinct keys and an acyclic graph, the dictionary
    [get_files] returns lists a referenced file before every file that
    references it. *)
Theorem X9_get_files_dependencies_first {py : PySet} (javalang : Javalang)
    (code_files : list (string * string)) :
  NoDup code_files.*1 →
  acyclic (DependencyGraph.build_graph javalang code_files DependencyGraph.init) →
  ∃ sorted_files,
    CodebaseReader.get_files_after_walk javalang code_files = Return sorted_files ∧
    ∀ A B,
      nx.has_edge (DependencyGraph.build_graph javalang code_files DependencyGraph.init) A B →
      before B A sorted_files.*1.
Proof.
  intros Hnd Hac. unfold CodebaseReader.get_files_after_walk, DependencyGraph.run.
  pose proof (wf_build_graph javalang code_files) as Hwf.
  destruct (get_topological_sort_spec _ Hwf)
    as [(order & _ & -> & Hndo & Hmem & Hord)|(_ & _ & Hc)]; [|by destruct Hac].
  eexists. split; [done|]. intros A B HAB.
  destruct (reorder_spec code_files (reverse order) Hnd) as (entries & -> & Hkeys & _).
  - by rewrite reverse_Permutation.
  - intros p Hp. rewrite elem_of_reverse, Hmem, nodes_build_graph in Hp.
    by apply elem_of_java_paths in Hp as [? _].
  - rewrite fmap_app, Hkeys. apply before_app_l, before_reverse. by apply Hord.
Qed.

Lemma X9_witness :
  ∃ sorted_files,
    @CodebaseReader.get_files_after_walk set_forward None files_chain = Return sorted_files ∧
    ∀ A B,
      nx.has_edge
        (@DependencyGraph.build_graph set_forward None files_chain DependencyGraph.init) A B →
      before B A sorted_files.*1.
Proof.
  apply (@X9_get_files_dependencies_first set_forward None files_chain).
  - apply (bool_decide_unpack _). vm_compute. exact I.
  - eapply topological_sort_returns_acyclic; [apply wf_build_graph|].
    vm_compute. reflexivity.
Defined.

(** ** The ignore test *)

Lemma string_append_assoc (a b c : string) :
  String.append (String.append a b) c = String.append a (String.append b c).
Proof.
  induction a as [|x a IH]; [done|].
  change (String x (String.append (String.append a b) c) =
          String x (String.append a (String.append b c))).
  by rewrite IH.
Qed.

Lemma prefix_append_refl (p post : string) :
  String.prefix p (String.append p post) = true.
Proof.
  induction p as [|a p IH]; [by destruct post|].
  change (String.append (String a p) post) with (String a (String.append p post)).
  cbn [String.prefix]. destruct (ascii_dec a a); [done|congruence].
Qed.

Lemma contains_iff (pattern s : string) :
  Text.contains pattern s = true ↔
  ∃ pre post, s = String.append pre (String.append pattern post).
Proof.
  split.
  - induction s as [|c s IH]; cbn [Text.contains].
    + destruct (String.prefix pattern EmptyString) eqn:Hp; [|done].
      intros _. apply prefix_append in Hp as [post ->]. by exists EmptyString, post.
    + destruct (String.prefix pattern (String c s)) eqn:Hp.
      * intros _. apply prefix_append in Hp as [post ->]. by exists EmptyString, post.
      * intros (pre & post & ->)%IH. by exists (String c pre), post.
  - intros (pre & post & ->). induction pre as [|c pre IH].
    + change (String.append EmptyString (String.append pattern post))
        with (String.append pattern post).
      pose proof (prefix_append_refl pattern post) as Hp.
      destruct (String.append pattern post); cbn [Text.contains]; by rewrite Hp.
    + change (String.append (String c pre) (String.append pattern post))
        with (String c (String.append pre (String.append pattern post))).
      cbn [Text.contains]. rewrite IH. by destruct (String.prefix _ _).
Qed.

Lemma should_ignore_iff (ignore_patterns : list string) (path : string) :
  CodebaseReader.should_ignore ignore_patterns path = true ↔
  ∃ pattern, pattern ∈ ignore_patterns ∧
    ∃ pre post, path = String.append pre (String.append pattern post).
Proof.
  induction ignore_patterns as [|pat pats IH]; simpl.
  - split; [done|]. by intros (? & []%elem_of_nil & _).
  - destruct (Text.contains pat path) eqn:Hc.
    + split; [|done]. intros _. exists pat. split; [left|]. by apply contains_iff.
    + rewrite IH. split.
      * intros (p & Hp & Hsub). exists p. split; [by right|done].
      * intros (p & [->|Hp]%elem_of_cons & Hsub); [|by exists p].
        apply contains_iff in Hsub. congruence.
Qed.

(** X10. [_should_ignore] tests for substrings, not for path components:
    a path is ignored exactly when one of the patterns occurs somewhere in
    its text. *)
Theorem X10_should_ignore_is_substring_test (ignore_patterns : list string)
    (path : string) :
  CodebaseReader.should_ignore ignore_patterns path = true ↔
  ∃ pattern, pattern ∈ ignore_patterns ∧
    ∃ pre post, path = String.append pre (String.append pattern post).
Proof. apply should_ignore_iff. Qed.

(** X11. When the directory being walked has a path that contains one of
    the patterns, as every directory below such a root has, none of its
    subdirectories is kept, whatever their names. *)
Theorem X11_ignored_root_prunes_all_dirs (ignore_patterns : list string)
    (root : string) (dirs : list string) :
  CodebaseReader.should_ignore ignore_patterns root = true →
  (∀ d, d ∈ dirs → String.prefix "/" d = false) →
  CodebaseReader.keep_dirs ignore_patterns root dirs = [].
Proof.
  intros Hroot Hrel. unfold CodebaseReader.keep_dirs. apply filter_none.
  intros d Hd. apply should_ignore_iff in Hroot as (pat & Hpat & pre & post & ->).
  assert (CodebaseReader.should_ignore ignore_patterns
            (Text.path_join (String.append pre (String.append pat post)) d) = true)
    as ->; [|done].
  apply should_ignore_iff. exists pat. split; [done|].
  unfold Text.path_join. rewrite (Hrel d Hd).
  destruct (_ || _).
  - exists pre, (String.append post d). by rewrite !string_append_assoc.
  - exists pre, (String.append post (String.append "/" d)).
    by rewrite !string_append_assoc.
Qed.

Lemma X11_witness :
  CodebaseReader.keep_dirs CodebaseReader.default_ignore_patterns
    "/home/me/code-analyzer/src/spring_repo" ["src"; "docs"]%string = [].
Proof.
  apply X11_ignored_root_prunes_all_dirs.
  - reflexivity.
  - intros d Hd. apply elem_of_cons in Hd as [->|Hd]; [reflexivity|].
    apply list_elem_of_singleton in Hd as ->. reflexivity.
Defined.

(** * The hash of the code base *)

Lemma str_le_lt_eq s1 s2 :
  str_le s1 s2 ↔ OrderedTypeEx.String_as_OT.lt s1 s2 ∨ s1 = s2.
Proof.
  unfold str_le, String.leb.
  rewrite <- OrderedTypeEx.String_as_OT.cmp_lt, <- OrderedTypeEx.String_as_OT.cmp_eq.
  unfold OrderedTypeEx.String_as_OT.cmp. destruct (String.compare s1 s2); split; try tauto.
  - done.
  - intros [?|?]; done.
Qed.

Global Instance str_le_trans : Transitive str_le.
Proof.
  intros a b c [Hab| ->]%str_le_lt_eq [Hbc| ->]%str_le_lt_eq; apply str_le_lt_eq.
  - left. by eapply OrderedTypeEx.String_as_OT.lt_trans.
  - by left.
  - by left.
  - by right.
Qed.

Global Instance str_le_antisym : AntiSymm (=) str_le.
Proof. intros a b. apply String.leb_antisym. Qed.

(** [sorted] does not see the order of its argument. *)
Lemma sorted_Permutation_eq l1 l2 : l1 ≡ₚ l2 → sorted l1 = sorted l2.
Proof.
  intros Hp. apply (StronglySorted_unique str_le).
  - apply StronglySorted_merge_sort; apply _.
  - apply StronglySorted_merge_sort; apply _.
  - by rewrite !sorted_Permutation.
Qed.

Lemma list_ascii_of_string_append (a b : string) :
  list_ascii_of_string (String.append a b) = list_ascii_of_string a ++ list_ascii_of_string b.
Proof.
  induction a as [|x a IH]; [done|].
  change (String.append (String x a) b) with (String x (String.append a b)).
  simpl. by rewrite IH.
Qed.

Lemma utf8_append (a b : string) :
  Text.utf8 (String.append a b) = Text.utf8 a ++ Text.utf8 b.
Proof.
  unfold Text.utf8. by rewrite list_ascii_of_string_append, fmap_app, concat_app.
Qed.

Section hash_facts.
Context (md5_hexdigest : list Byte.byte → string).

Lemma feed_ext code_files code_files' (paths : list string) : ∀ hasher,
  (∀ p, Text.dict_get p code_files = Text.dict_get p code_files') →
  RAGEngine.feed code_files paths hasher = RAGEngine.feed code_files' paths hasher.
Proof.
  induction paths as [|p paths IH]; intros hasher Hext; simpl; [done|].
  rewrite <- Hext. destruct (Text.dict_get p code_files); [|done]. by apply IH.
Qed.

Lemma feed_is_Some code_files (paths : list string) : ∀ hasher,
  (∀ p, p ∈ paths → p ∈ code_files.*1) →
  is_Some (RAGEngine.feed code_files paths hasher).
Proof.
  induction paths as [|p paths IH]; intros hasher Hsub; simpl; [done|].
  destruct (dict_get_is_Some code_files p) as [c ->]; [apply Hsub; left|].
  apply IH. intros q Hq. apply Hsub. by right.
Qed.

(** X12. [calculate_hash] never meets a missing key, and it does not
    depend on the order of the dictionary: two dictionaries with distinct
    keys and the same entries have the same hash. *)
Theorem X12_hash_ignores_insertion_order (code_files code_files' : list (string * string)) :
  NoDup code_files.*1 → code_files ≡ₚ code_files' →
  ∃ h, RAGEngine.calculate_hash md5_hexdigest code_files = Some h ∧
       RAGEngine.calculate_hash md5_hexdigest code_files' = Some h.
Proof.
  intros Hnd Hperm. unfold RAGEngine.calculate_hash.
  assert (code_files.*1 ≡ₚ code_files'.*1) as Hkeys by (by rewrite Hperm).
  assert (NoDup code_files'.*1) as Hnd' by (by rewrite <- Hkeys).
  rewrite <- (sorted_Permutation_eq _ _ Hkeys).
  rewrite <- (feed_ext code_files code_files').
  - destruct (feed_is_Some code_files (sorted code_files.*1) []) as [bytes ->].
    + intros p Hp. by rewrite sorted_Permutation in Hp.
    + by eexists.
  - intros p. apply option_eq. intros c.
    rewrite !dict_get_Some by done. by rewrite Hperm.
Qed.
End hash_facts.

Lemma X12_witness :
  ∃ h, RAGEngine.calculate_hash (λ _, EmptyString) files_self = Some h ∧
       RAGEngine.calculate_hash (λ _, EmptyString) (reverse files_self) = Some h.
Proof.
  apply (X12_hash_ignores_insertion_order (λ _, EmptyString) files_self (reverse files_self)).
  - apply (bool_decide_unpack _). vm_compute. exact I.
  - symmetry. apply reverse_Permutation.
Defined.

(** X13. The hasher is fed path and text without a mark between them:
    moving the end of a file's path to the front of its text gives a
    different code base with the same hash. *)
Theorem X13_hash_does_not_delimit (md5_hexdigest : list Byte.byte → string)
    (p q c : string) :
  q ≠ EmptyString →
  [(String.append p q, c)] ≠ [(p, String.append q c)] ∧
  RAGEngine.calculate_hash md5_hexdigest [(String.append p q, c)] =
    Some (md5_hexdigest (Text.utf8 p ++ Text.utf8 q ++ Text.utf8 c)) ∧
  RAGEngine.calculate_hash md5_hexdigest [(p, String.append q c)] =
    Some (md5_hexdigest (Text.utf8 p ++ Text.utf8 q ++ Text.utf8 c)).
Proof.
  intros Hq. split_and!.
  - intros [= Heq _]. apply (f_equal String.length) in Heq.
    rewrite string_length_append in Heq. destruct q; [done|]. simpl in Heq. lia.
  - unfold RAGEngine.calculate_hash.
    change (sorted [(String.append p q, c)].*1) with [String.append p q].
    cbn [RAGEngine.feed Text.dict_get]. rewrite decide_True by done.
    cbn [RAGEngine.feed fmap option_fmap option_map app].
    by rewrite utf8_append, <- app_assoc.
  - unfold RAGEngine.calculate_hash.
    change (sorted [(p, String.append q c)].*1) with [p].
    cbn [RAGEngine.feed Text.dict_get]. rewrite decide_True by done.
    cbn [RAGEngine.feed fmap option_fmap option_map app].
    by rewrite utf8_append.
Qed.

Lemma X13_witness :
  RAGEngine.calculate_hash (λ _, EmptyString) [("A.java", "x")]%string =
  RAGEngine.calculate_hash (λ _, EmptyString) [("A.", "javax")]%string.
Proof.
  destruct (X13_hash_does_not_delimit (λ _, EmptyString) "A." "java" "x") as (_ & H1 & H2).
  - discriminate.
  - exact (eq_trans H1 (eq_sym H2)).
Defined.

(** * The retry loop of the synthesis *)

(** X14. Whatever the model answers, the retry loop of [analyze_with_rag]
    returns a result or an error dictionary and never runs off its end; it
    calls the model
    at least once and at most four times, sleeps 5, 10 and 20 seconds
    after the first, second and third failed call it retries, and so at
    most 35 seconds in all. *)
Theorem X14_retry_is_bounded (llm : nat → LLMCodeAnalyzer.reply) :
  (LLMCodeAnalyzer.analyze_with_rag llm).1.1 ≠ LLMCodeAnalyzer.NoReport ∧
  1 ≤ (LLMCodeAnalyzer.analyze_with_rag llm).1.2 ≤ 4 ∧
  (LLMCodeAnalyzer.analyze_with_rag llm).2 =
    (λ attempt, 5 * 2 ^ attempt) <$> seq 0 ((LLMCodeAnalyzer.analyze_with_rag llm).1.2 - 1) ∧
  sum_list (LLMCodeAnalyzer.analyze_with_rag llm).2 ≤ 35.
Proof.
  unfold LLMCodeAnalyzer.analyze_with_rag. cbn.
  repeat match goal with
         | |- context [match llm ?n with _ => _ end] => destruct (llm n)
         | |- context [if LLMCodeAnalyzer.rate_limited ?e then _ else _] =>
             destruct (LLMCodeAnalyzer.rate_limited e)
         end;
    cbn; split_and!; solve [done|lia].
Qed.

(** X15. A call is repeated only after a rate-limit error: every call
    but the last failed with a text that contains [RESOURCE_EXHAUSTED] or
    [429].  The last call decides what is returned: its parsed result, or
    its error text when that is no rate-limit error, or, after the fourth
    rate-limit error, the text behind [Rate limit exceeded: ]. *)
Theorem X15_retry_only_on_rate_limit (llm : nat → LLMCodeAnalyzer.reply) :
  (∀ attempt, attempt < (LLMCodeAnalyzer.analyze_with_rag llm).1.2 - 1 →
     ∃ error_str, llm attempt = LLMCodeAnalyzer.Failed error_str ∧
                  LLMCodeAnalyzer.rate_limited error_str = true) ∧
  match llm ((LLMCodeAnalyzer.analyze_with_rag llm).1.2 - 1) with
  | LLMCodeAnalyzer.Parsed result =>
      (LLMCodeAnalyzer.analyze_with_rag llm).1.1 = LLMCodeAnalyzer.Result result
  | LLMCodeAnalyzer.Failed error_str =>
      if LLMCodeAnalyzer.rate_limited error_str then
        (LLMCodeAnalyzer.analyze_with_rag llm).1.2 = 4 ∧
        (LLMCodeAnalyzer.analyze_with_rag llm).1.1 =
          LLMCodeAnalyzer.Error (String.append "Rate limit exceeded: " error_str)
      else (LLMCodeAnalyzer.analyze_with_rag llm).1.1 = LLMCodeAnalyzer.Error error_str
  end.
Proof.
  unfold LLMCodeAnalyzer.analyze_with_rag. cbn.
  destruct (llm 0) as [r0|e0] eqn:H0;
    [|destruct (LLMCodeAnalyzer.rate_limited e0) eqn:R0;
      [destruct (llm 1) as [r1|e1] eqn:H1;
        [|destruct (LLMCodeAnalyzer.rate_limited e1) eqn:R1;
          [destruct (llm 2) as [r2|e2] eqn:H2;
            [|destruct (LLMCodeAnalyzer.rate_limited e2) eqn:R2;
              [destruct (llm 3) as [r3|e3] eqn:H3;
                [|destruct (LLMCodeAnalyzer.rate_limited e3) eqn:R3]|]]|]]|]];
    cbn; rewrite ?H0, ?H1, ?H2, ?H3, ?R0, ?R1, ?R2, ?R3;
    (split; [|done]);
    intros [|[|[|a]]] Ha; cbn in Ha; try lia; eauto.
Qed.

(** * The choice of model and embeddings *)

(** X16. A provider passed to [get_llm] that is not the empty string
    decides alone: the value of [LLM_PROVIDER] does not change the
    result. *)
Theorem X16_provider_argument_has_priority (installed : llm_factory.packages)
    (env : gmap string string) (provider value : string) :
  provider ≠ EmptyString →
  llm_factory.get_llm installed (<["LLM_PROVIDER"%string := value]> env) (Some provider) =
  llm_factory.get_llm installed env (Some provider).
Proof.
  intros Hp. unfold llm_factory.get_llm.
  destruct (String.eqb_spec provider EmptyString) as [?|_]; [done|].
  unfold Text.getenv, Text.getenv_default.
  by rewrite !lookup_insert_ne by done.
Qed.

Lemma X16_witness :
  llm_factory.get_llm
    {| llm_factory.langchain_groq := true; llm_factory.langchain_anthropic := false;
       llm_factory.langchain_openai := false |}
    (<["LLM_PROVIDER"%string := "openai"%string]> {["GROQ_API_KEY"%string := "k"%string]})
    (Some "groq"%string) =
  llm_factory.get_llm
    {| llm_factory.langchain_groq := true; llm_factory.langchain_anthropic := false;
       llm_factory.langchain_openai := false |}
    {["GROQ_API_KEY"%string := "k"%string]} (Some "groq"%string).
Proof. apply X16_provider_argument_has_priority. discriminate. Defined.

(** X17. Without a Google key (as argument or in [GOOGLE_API_KEY]) and
    without [OPENAI_API_KEY], [RAGEngine.__init__] raises [ValueError],
    whatever the provider and the installed packages: the keys of Groq and
    Anthropic do not help. *)
Theorem X17_embeddings_need_google_or_openai_key (installed : llm_factory.packages)
    (env : gmap string string) (api_key : option string) :
  Text.truthy api_key = false →
  Text.truthy (env !! "GOOGLE_API_KEY"%string) = false →
  Text.truthy (env !! "OPENAI_API_KEY"%string) = false →
  ∃ msg, RAGEngine.init installed env api_key = inl (llm_factory.ValueError msg).
Proof.
  intros Ha Hg Ho. unfold RAGEngine.init, Text.getenv. rewrite Ha, Hg, Ho. simpl.
  rewrite ?andb_false_r, ?orb_false_r.
  destruct (String.eqb _ "openai").
  - destruct (env !! "OPENAI_API_KEY"%string) as [key|]; [|by eexists].
    simpl in Ho. apply negb_false_iff in Ho. rewrite Ho. by eexists.
  - destruct (env !! "GOOGLE_API_KEY"%string) as [key|]; [|by eexists].
    simpl in Hg. apply negb_false_iff in Hg. rewrite Hg. by eexists.
Qed.

Lemma X17_witness :
  ∃ msg,
    RAGEngine.init
      {| llm_factory.langchain_groq := true; llm_factory.langchain_anthropic := true;
         llm_factory.langchain_openai := true |}
      (<["LLM_PROVIDER"%string := "groq"%string]> {["GROQ_API_KEY"%string := "k"%string]})
      None
    = inl (llm_factory.ValueError msg).
Proof. apply X17_embeddings_need_google_or_openai_key; reflexivity. Defined.

(** X18. With the provider [openai], in any letter case, and no
    [OPENAI_API_KEY], [RAGEngine.__init__] raises [ValueError] even when a
    Google key is at hand: there is no way back to the Google embeddings. *)
Theorem X18_openai_provider_never_uses_google_key (installed : llm_factory.packages)
    (env : gmap string string) (api_key : option string) :
  Text.lower (Text.getenv_default env "LLM_PROVIDER" "google") = "openai"%string →
  Text.truthy (env !! "OPENAI_API_KEY"%string) = false →
  ∃ msg, RAGEngine.init installed env api_key = inl (llm_factory.ValueError msg).
Proof.
  intros Hp Ho. unfold RAGEngine.init, Text.getenv. rewrite Hp, Ho. simpl.
  destruct (env !! "OPENAI_API_KEY"%string) as [key|]; [|by eexists].
  simpl in Ho. apply negb_false_iff in Ho. rewrite Ho. by eexists.
Qed.

Lemma X18_witness :
  ∃ msg,
    RAGEngine.init
      {| llm_factory.langchain_groq := true; llm_factory.langchain_anthropic := true;
         llm_factory.langchain_openai := true |}
      (<["LLM_PROVIDER"%string := "OpenAI"%string]> {["GOOGLE_API_KEY"%string := "g"%string]})
      None
    = inl (llm_factory.ValueError msg).
Proof. apply X18_openai_provider_never_uses_google_key; reflexivity. Defined.

(** * The place of the files that nobody imports *)

Lemma topological_sort_starts_with_zero_indegree G order :
  nx.topological_sort G = Return order →
  ∃ rest, order = nx.zero_indegree0 G ++ rest.
Proof.
  unfold nx.topological_sort.
  destruct (nx.zero_indegree0 G) as [|x q] eqn:Hz.
  - cbn [nx.generations]. case_decide; [|done]. intros [= <-]. by exists [].
  - cbn [nx.generations].
    destruct (nx.visit G (x :: q) (nx.indegree_map0 G) []) as [[im next]|]; [|done].
    destruct (nx.generations _ G im next) as [[gens final]| |]; [|done|done].
    case_decide; [|done]. intros [= <-]. by exists (concat gens).
Qed.

Lemma in_degree_zero_iff G v :
  wf_graph G → nx.in_degree G v = 0%Z ↔ ∀ u, ¬ nx.has_edge G u v.
Proof.
  intros Hwf. rewrite <- remaining_nil. split.
  - intros Hz u Huv. apply (remaining_zero G Hwf [] u v Hz) in Huv. by apply elem_of_nil in Huv.
  - intros Hno. pose proof (remaining_nonneg G [] v) as Hnn.
    destruct (decide (remaining G [] v = 0%Z)) as [?|Hne]; [done|].
    destruct (remaining_pos G [] v) as (u & _ & _ & Huv); [lia|]. by destruct (Hno u).
Qed.

(** X19. With distinct keys and an acyclic graph, the indexed files of
    in-degree 0, which are the files that no file imports, stand at the end
    of the result, the later of the input first. *)
Theorem X19_unimported_files_come_last {py : PySet} (javalang : Javalang)
    (code_files : list (string * string)) :
  NoDup code_files.*1 →
  acyclic (DependencyGraph.build_graph javalang code_files DependencyGraph.init) →
  (∀ p, nx.in_degree
          (DependencyGraph.build_graph javalang code_files DependencyGraph.init) p = 0%Z ↔
        ∀ u, ¬ nx.has_edge
                 (DependencyGraph.build_graph javalang code_files DependencyGraph.init) u p) ∧
  ∃ front,
    DependencyGraph.run javalang code_files =
    Return (front ++
            filter (λ p, nx.in_degree
                           (DependencyGraph.build_graph javalang code_files
                              DependencyGraph.init) p = 0%Z)
              (reverse (java_paths code_files))).
Proof.
  intros Hnd Hac.
  pose proof (wf_build_graph javalang code_files) as Hwf.
  split; [intros p; by apply in_degree_zero_iff|].
  destruct (topological_sort_acyclic _ Hwf Hac) as (order & Hts & _).
  destruct (topological_sort_starts_with_zero_indegree _ _ Hts) as [rest ->].
  unfold DependencyGraph.run, DependencyGraph.get_topological_sort. rewrite Hts.
  exists (reverse rest). rewrite reverse_app. do 2 f_equal.
  unfold nx.zero_indegree0. rewrite nodes_build_graph_NoDup by done.
  by rewrite filter_reverse.
Qed.

Lemma X19_witness :
  ∃ front,
    @DependencyGraph.run set_forward None files_fan =
    Return (front ++
            filter (λ p, nx.in_degree
                           (@DependencyGraph.build_graph set_forward None files_fan
                              DependencyGraph.init) p = 0%Z)
              (reverse (java_paths files_fan))).
Proof.
  apply (@X19_unimported_files_come_last set_forward None files_fan).
  - apply (bool_decide_unpack _). vm_compute. exact I.
  - eapply topological_sort_returns_acyclic; [apply wf_build_graph|].
    vm_compute. reflexivity.
Defined.

(** X20. For a path whose base name holds [.java] as its last five
    characters and nowhere else, the type name is the base name without
    these five characters. *)
Theorem X20_class_name_strips_extension (file_path s : string) :
  Str.item_last (Str.split "/" file_path) = String.append s ".java" →
  (∀ pre post,
     String.append s ".java" = String.append pre (String.append ".java" post) →
     post = EmptyString) →
  DependencyGraph.class_name file_path = s.
Proof. intros Hbase Hsuffix. by apply class_name_stem. Qed.

Lemma X20_witness : DependencyGraph.class_name "src/p/A.java" = "A"%string.
Proof.
  apply (X20_class_name_strips_extension "src/p/A.java" "A").
  - reflexivity.
  - intros pre post Heq. destruct pre as [|c pre].
    + cbv in Heq. discriminate Heq.
    + apply (f_equal String.length) in Heq.
      change (String.append (String c pre) (String.append ".java" post))
        with (String c (String.append pre (String.append ".java" post))) in Heq.
      cbn [String.length] in Heq. rewrite !string_length_append in Heq.
      destruct post; [done|]. cbn in Heq. lia.
Defined.
